(** * Night simulation engine of the survival game (src/src/App.tsx)

    A shallow embedding of the state-transition functions of [App.tsx]:
    the clock/power ticker (the [gameTimer] interval callback), the actor
    movement scheduler (the [moveTimer] interval callback, with
    [moveAnimatronic] and [isBlockedByDoor]), night initialisation, the
    player intents ([startGame], [restartGame], [toggleDoor],
    [switchCamera]), the auto-advance effect, and of what the render
    computes from the state: the camera feed ([getCameraView]), the
    clock label ([formatTime]) and the door popups.

    Numbers.  [power] takes fractional values, so it is a binary64 float
    as in JavaScript: Rocq's primitive [float] with round-to-nearest-even
    [+], [-] and IEEE comparisons.  The counters ([night], [time],
    [moveTimer], [doorTimer], [currentCamera]) only ever hold integers
    that are set to a literal or incremented by one; they are modelled
    as [Z]. *)

From Stdlib Require Import ZArith Bool List Lia String DecimalString Floats.
Import ListNotations.

#[local] Set Warnings "-inexact-float".
#[local] Open Scope Z_scope.

(** ** Types *)

Inductive AnimatronicType := Deddy | Gen | Poppy.
Inductive CameraLocation := stage | cam3 | cam1 | leftDoor | rightDoor.
Inductive GameState := menu | playing | gameOver | victory.

Record Animatronic := mkAnimatronic {
  name : AnimatronicType;
  location : CameraLocation;
  isActive : bool;
  moveTimer : Z;
  atDoor : bool;
  soundPlayed : bool;
  doorTimer : option Z  (* doorTimer?: number *)
}.

Record GameData := mkGameData {
  night : Z;
  time : Z;
  power : float;
  leftDoorClosed : bool;
  rightDoorClosed : bool;
  currentCamera : Z;
  animatronics : list Animatronic;
  gameState : GameState;
  bossMode : bool
}.

Definition NIGHT_DURATION : Z := 360.
Definition BASE_POWER_DRAIN : float := 0.05%float.
Definition DOOR_POWER_DRAIN : float := 0.15%float.
Definition CAMERA_POWER_DRAIN : float := 0.2%float.

Definition AnimatronicType_eqb (a b : AnimatronicType) : bool :=
  match a, b with
  | Deddy, Deddy | Gen, Gen | Poppy, Poppy => true
  | _, _ => false
  end.

Definition CameraLocation_eqb (a b : CameraLocation) : bool :=
  match a, b with
  | stage, stage | cam3, cam3 | cam1, cam1
  | leftDoor, leftDoor | rightDoor, rightDoor => true
  | _, _ => false
  end.

Definition GameState_eqb (a b : GameState) : bool :=
  match a, b with
  | menu, menu | playing, playing | gameOver, gameOver | victory, victory => true
  | _, _ => false
  end.

(** ** Record updates ([{ ...prev, field: v }]) *)

Definition set_gameState (g : GameState) (d : GameData) : GameData :=
  mkGameData (night d) (time d) (power d) (leftDoorClosed d) (rightDoorClosed d)
             (currentCamera d) (animatronics d) g (bossMode d).

Definition set_power (p : float) (d : GameData) : GameData :=
  mkGameData (night d) (time d) p (leftDoorClosed d) (rightDoorClosed d)
             (currentCamera d) (animatronics d) (gameState d) (bossMode d).

Definition set_time (t : Z) (d : GameData) : GameData :=
  mkGameData (night d) t (power d) (leftDoorClosed d) (rightDoorClosed d)
             (currentCamera d) (animatronics d) (gameState d) (bossMode d).

Definition set_currentCamera (c : Z) (d : GameData) : GameData :=
  mkGameData (night d) (time d) (power d) (leftDoorClosed d) (rightDoorClosed d)
             c (animatronics d) (gameState d) (bossMode d).

Definition set_animatronics (l : list Animatronic) (d : GameData) : GameData :=
  mkGameData (night d) (time d) (power d) (leftDoorClosed d) (rightDoorClosed d)
             (currentCamera d) l (gameState d) (bossMode d).

Definition set_leftDoorClosed (b : bool) (d : GameData) : GameData :=
  mkGameData (night d) (time d) (power d) b (rightDoorClosed d)
             (currentCamera d) (animatronics d) (gameState d) (bossMode d).

Definition set_rightDoorClosed (b : bool) (d : GameData) : GameData :=
  mkGameData (night d) (time d) (power d) (leftDoorClosed d) b
             (currentCamera d) (animatronics d) (gameState d) (bossMode d).

(** ** The clock/power ticker *)

(** [Math.max(a, b)] on two numbers: NaN if either is NaN, otherwise the
    larger, with [+0] above [-0]. *)
Definition Math_max (a b : float) : float :=
  if (is_nan a || is_nan b)%bool then nan
  else if (a <? b)%float then b
  else if (b <? a)%float then a
  else if get_sign a then b else a.

(** [drain] after the three conditional [+=] of the callback. *)
Definition powerDrain (showCameras : bool) (prev : GameData) : float :=
  let drain := BASE_POWER_DRAIN in
  let drain := if leftDoorClosed prev then (drain + DOOR_POWER_DRAIN)%float else drain in
  let drain := if rightDoorClosed prev then (drain + DOOR_POWER_DRAIN)%float else drain in
  let drain := if showCameras then (drain + CAMERA_POWER_DRAIN)%float else drain in
  drain.

(** The updater passed to [setGameData] by the [gameTimer] interval. *)
Definition gameTick (showCameras : bool) (prev : GameData) : GameData :=
  let newTime := time prev + 1 in
  let newPower := (power prev - powerDrain showCameras prev)%float in
  if (newPower <=? 0)%float then
    set_power 0%float (set_gameState gameOver prev)
  else if NIGHT_DURATION <=? newTime then
    if 5 <=? night prev then set_gameState victory prev
    else set_gameState menu prev
  else
    set_power (Math_max 0%float newPower) (set_time newTime prev).

(** ** Night initialisation and player intents *)

Definition freshAnimatronic (n : AnimatronicType) (active : bool) : Animatronic :=
  mkAnimatronic n stage active 0 false false (Some 0).

Definition set_isActive (b : bool) (a : Animatronic) : Animatronic :=
  mkAnimatronic (name a) (location a) b (moveTimer a) (atDoor a)
                (soundPlayed a) (doorTimer a).

(** The array built by [initializeNight], after the [night === 5]
    overwrite of the three active flags. *)
Definition nightAnimatronics (night : Z) : list Animatronic :=
  let deddy := freshAnimatronic Deddy (4 <=? night) in
  let gen := freshAnimatronic Gen (1 <=? night) in
  let poppy := freshAnimatronic Poppy (1 <=? night) in
  if night =? 5 then
    [set_isActive true deddy; set_isActive false gen; set_isActive false poppy]
  else [deddy; gen; poppy].

Definition initializeNight (n : Z) (prev : GameData) : GameData :=
  mkGameData n 0 100%float false false 4 (nightAnimatronics n) playing (n =? 5).

(** The state [useState] starts from. *)
Definition initialGameData : GameData :=
  mkGameData 1 0 100%float false false 4
    [ mkAnimatronic Deddy stage false 0 false false (Some 0);
      mkAnimatronic Gen stage false 0 false false (Some 0);
      mkAnimatronic Poppy stage false 0 false false (Some 0) ]
    menu false.

Definition startGame (prev : GameData) : GameData := initializeNight 1 prev.

Definition restartGame (prev : GameData) : GameData := set_gameState menu prev.

Inductive Side := left | right.

Definition toggleDoor (side : Side) (prev : GameData) : GameData :=
  match side with
  | left => set_leftDoorClosed (negb (leftDoorClosed prev)) prev
  | right => set_rightDoorClosed (negb (rightDoorClosed prev)) prev
  end.

(** [switchCamera] either raises the toast and leaves the state alone, or
    updates [currentCamera]; the second component is the text handed to
    [toast.error], if any. *)
Definition switchCamera (camera : Z) (prev : GameData) : GameData * option string :=
  if camera =? 2 then (prev, Some "Camera 2 is not working!"%string)
  else (set_currentCamera camera prev, None).

(** ** The actor movement scheduler *)

(** [Math.random()]: the i-th call returns [rnd i]; a cursor counts the
    calls made so far. *)
Definition Rng := nat -> float.

Definition isDoor (l : CameraLocation) : bool :=
  match l with leftDoor | rightDoor => true | _ => false end.

Definition orZero (t : option Z) : Z :=   (* [t || 0] *)
  match t with Some n => n | None => 0 end.

(** What one call of the [map] callback leaves behind: the element of
    [prev.animatronics] it was given ([moveAnimatronic] writes
    [soundPlayed] into that very object), the element it returns, whether
    [playScarySound] was called, and the random cursor. *)
Record Step := mkStep {
  argument : Animatronic;
  returned : Animatronic;
  played : bool;
  draws : nat
}.

Definition set_soundPlayed (b : bool) (a : Animatronic) : Animatronic :=
  mkAnimatronic (name a) (location a) (isActive a) (moveTimer a) (atDoor a)
                b (doorTimer a).

Definition set_doorTimer (t : option Z) (a : Animatronic) : Animatronic :=
  mkAnimatronic (name a) (location a) (isActive a) (moveTimer a) (atDoor a)
                (soundPlayed a) t.

Definition moveAnimatronic (rnd : Rng) (i : nat) (animatronic : Animatronic) : Step :=
  let '(newLocation, i') :=
    match location animatronic with
    | stage => (cam3, i)
    | cam3 => (cam1, i)
    | cam1 => (if (rnd i <? 0.5)%float then leftDoor else rightDoor, S i)
    | _ => (stage, i)
    end in
  let sound :=
    AnimatronicType_eqb (name animatronic) Deddy
    && negb (soundPlayed animatronic)
    && negb (CameraLocation_eqb newLocation stage) in
  let animatronic := if sound then set_soundPlayed true animatronic else animatronic in
  mkStep animatronic
         (mkAnimatronic (name animatronic) newLocation (isActive animatronic) 0
                        (isDoor newLocation) (soundPlayed animatronic)
                        (doorTimer animatronic))
         sound i'.

Definition isBlockedByDoor (animatronic : Animatronic) (leftDoor_ rightDoor_ : bool) : bool :=
  (CameraLocation_eqb (location animatronic) leftDoor && leftDoor_)
  || (CameraLocation_eqb (location animatronic) rightDoor && rightDoor_).

(** [{ ...animatronic, location: 'stage', atDoor: false, moveTimer: 0,
      soundPlayed: false, doorTimer: 0 }] *)
Definition backToStage (a : Animatronic) : Animatronic :=
  mkAnimatronic (name a) stage (isActive a) 0 false false (Some 0).

(** [{ ...animatronic, location: doorSide, atDoor: true, moveTimer: 0,
      soundPlayed: false, doorTimer: 0 }] *)
Definition runToDoor (doorSide : CameraLocation) (a : Animatronic) : Animatronic :=
  mkAnimatronic (name a) doorSide (isActive a) 0 true false (Some 0).

(** [{ ...animatronic, moveTimer: m, doorTimer: t }] *)
Definition set_timers (m : Z) (t : option Z) (a : Animatronic) : Animatronic :=
  mkAnimatronic (name a) (location a) (isActive a) m (atDoor a) (soundPlayed a) t.

Definition shouldMove (animatronic : Animatronic) (newMoveTimer : Z) : bool :=
  (CameraLocation_eqb (location animatronic) stage && (80 <=? newMoveTimer))
  || (CameraLocation_eqb (location animatronic) cam3 && (90 <=? newMoveTimer))
  || (CameraLocation_eqb (location animatronic) cam1 && (100 <=? newMoveTimer)).

(** The callback given to [prev.animatronics.map]. *)
Definition stepAnimatronic (rnd : Rng) (prev : GameData) (i : nat)
    (animatronic : Animatronic) : Step :=
  if negb (isActive animatronic) then mkStep animatronic animatronic false i
  else
    let newMoveTimer := moveTimer animatronic + 1 in
    if atDoor animatronic then
      let isLeft := CameraLocation_eqb (location animatronic) leftDoor in
      let isRight := CameraLocation_eqb (location animatronic) rightDoor in
      let doorClosed :=
        (isLeft && leftDoorClosed prev) || (isRight && rightDoorClosed prev) in
      if doorClosed then mkStep animatronic (backToStage animatronic) false i
      else
        let newDoorTimer := orZero (doorTimer animatronic) + 1 in
        if 80 <=? newDoorTimer then
          mkStep animatronic (set_doorTimer (Some newDoorTimer) animatronic) false i
        else
          mkStep animatronic
                 (set_timers newMoveTimer (Some newDoorTimer) animatronic) false i
    else if shouldMove animatronic newMoveTimer then
      let m := moveAnimatronic rnd i animatronic in
      mkStep (argument m) (set_doorTimer (Some 0) (returned m)) (played m) (draws m)
    else if isBlockedByDoor animatronic (leftDoorClosed prev) (rightDoorClosed prev)
            && (90 <=? newMoveTimer) then
      mkStep animatronic (backToStage animatronic) false i
    else if bossMode prev && AnimatronicType_eqb (name animatronic) Deddy then
      (* [Math.random() < 0.045] is evaluated, consuming a draw *)
      if (rnd i <? 0.045)%float then
        let doorSide := if (rnd (S i) <? 0.5)%float then leftDoor else rightDoor in
        mkStep animatronic (runToDoor doorSide animatronic) false (S (S i))
      else
        mkStep animatronic (set_timers newMoveTimer (Some 0) animatronic) false (S i)
    else
      mkStep animatronic (set_timers newMoveTimer (Some 0) animatronic) false i.

(** [Array.prototype.map]: the callback runs on the elements in order;
    the random cursor is threaded from one call to the next. *)
Fixpoint stepAll (rnd : Rng) (prev : GameData) (i : nat)
    (l : list Animatronic) : list Step :=
  match l with
  | [] => []
  | a :: l' =>
      let s := stepAnimatronic rnd prev i a in
      s :: stepAll rnd prev (draws s) l'
  end.

Definition updatedAnimatronics (rnd : Rng) (i : nat) (prev : GameData) : list Animatronic :=
  map returned (stepAll rnd prev i (animatronics prev)).

(** The objects of [prev.animatronics] once the [map] has run. *)
Definition visitedAnimatronics (rnd : Rng) (i : nat) (prev : GameData) : list Animatronic :=
  map argument (stepAll rnd prev i (animatronics prev)).

Definition tooLongAtDoor (a : Animatronic) : bool :=
  atDoor a && (80 <=? orZero (doorTimer a)).

(** The updater passed to [setGameData] by the [moveTimer] interval.
    [{ ...prev, gameState: 'gameOver' }] keeps [prev.animatronics], the
    array whose objects the callbacks have just been run on. *)
Definition moveTick (rnd : Rng) (i : nat) (prev : GameData) : GameData :=
  match find tooLongAtDoor (updatedAnimatronics rnd i prev) with
  | Some _ => set_gameState gameOver (set_animatronics (visitedAnimatronics rnd i prev) prev)
  | None => set_animatronics (updatedAnimatronics rnd i prev) prev
  end.

(** The calls of [playScarySound] made during the tick, one flag per actor. *)
Definition moveTickSounds (rnd : Rng) (i : nat) (prev : GameData) : list bool :=
  map played (stepAll rnd prev i (animatronics prev)).

Fixpoint lastDraws (i : nat) (l : list Step) : nat :=
  match l with
  | [] => i
  | s :: l' => lastDraws (draws s) l'
  end.

Definition moveTickDraws (rnd : Rng) (i : nat) (prev : GameData) : nat :=
  lastDraws i (stepAll rnd prev i (animatronics prev)).

(** ** The component: state, ref, pending timeout and events

    [App] keeps, besides [gameData], the two other pieces of [useState],
    the [prevGameStateRef] ref and the timeout the auto-advance effect may
    have pending.  React applies the updaters queued by [setGameData]
    since the last render in order, each to the result of the one before,
    and commits the outcome; it then runs the effect if one of its
    dependencies ([gameData.gameState], [gameData.night];
    [initializeNight] never changes) differs from the previous commit:
    first the cleanup the previous run returned ([clearTimeout]), then the
    body.  What can queue an updater is decided by the committed render:
    the two intervals are armed only while its phase is [playing], and
    each button exists only on the screen of its phase. *)

Record Timeout := mkTimeout {
  delay : Z;        (* milliseconds *)
  nextNight : Z     (* the argument [gameData.night + 1] captured by the closure *)
}.

Record App := mkApp {
  gameData : GameData;
  showCameras : bool;
  soundEnabled : bool;
  prevGameStateRef : GameState;
  autoAdvance : option Timeout;
  randomCalls : nat
}.

Definition phase (a : App) : GameState := gameState (gameData a).

(** The body of the auto-advance effect, preceded by the cleanup of its
    previous run.  When it arms the timeout it returns early and leaves
    [prevGameStateRef] as it was. *)
Definition autoAdvanceEffect (a : App) : App :=
  if GameState_eqb (prevGameStateRef a) playing && GameState_eqb (phase a) menu then
    mkApp (gameData a) (showCameras a) (soundEnabled a) (prevGameStateRef a)
          (Some (mkTimeout 2000 (night (gameData a) + 1))) (randomCalls a)
  else
    mkApp (gameData a) (showCameras a) (soundEnabled a) (phase a)
          None (randomCalls a).

Definition setGameData (d : GameData) (a : App) : App :=
  let a' := mkApp d (showCameras a) (soundEnabled a) (prevGameStateRef a)
                  (autoAdvance a) (randomCalls a) in
  if GameState_eqb (phase a) (gameState d) && (night (gameData a) =? night d)
  then a' else autoAdvanceEffect a'.

(** The callers of [setGameData]. *)
Inductive Update :=
  | StartGame | RestartGame
  | ToggleDoor (side : Side) | SwitchCamera (camera : Z)
  | GameTimer | MoveTimer.

Inductive Event :=
  | Commit (updates : list Update)  (* the updaters queued since the last render *)
  | ToggleCameras | ToggleSound
  | AutoAdvance.                    (* the pending timeout fires *)

Definition armed (a : App) (u : Update) : bool :=
  match u with
  | StartGame => GameState_eqb (phase a) menu
  | RestartGame => GameState_eqb (phase a) gameOver || GameState_eqb (phase a) victory
  | ToggleDoor _ | SwitchCamera _ | GameTimer | MoveTimer =>
      GameState_eqb (phase a) playing
  end.

(** One updater, on the state left by the updaters before it; the
    second component is the random cursor. *)
Definition applyUpdate (rnd : Rng) (cameras : bool) (s : GameData * nat)
    (u : Update) : GameData * nat :=
  let (d, i) := s in
  match u with
  | StartGame => (startGame d, i)
  | RestartGame => (restartGame d, i)
  | ToggleDoor side => (toggleDoor side d, i)
  | SwitchCamera camera => (fst (switchCamera camera d), i)
  | GameTimer => (gameTick cameras d, i)
  | MoveTimer => (moveTick rnd i d, moveTickDraws rnd i d)
  end.

Definition applyUpdates (rnd : Rng) (a : App) (updates : list Update)
    : GameData * nat :=
  fold_left (applyUpdate rnd (showCameras a)) (filter (armed a) updates)
            (gameData a, randomCalls a).

Definition step (rnd : Rng) (e : Event) (a : App) : App :=
  match e with
  | Commit updates =>
      let (d, i) := applyUpdates rnd a updates in
      setGameData d
        (mkApp (gameData a) (showCameras a) (soundEnabled a) (prevGameStateRef a)
               (autoAdvance a) i)
  | ToggleCameras =>
      if GameState_eqb (phase a) playing then
        mkApp (gameData a) (negb (showCameras a)) (soundEnabled a)
              (prevGameStateRef a) (autoAdvance a) (randomCalls a)
      else a
  | ToggleSound =>
      if GameState_eqb (phase a) playing then
        mkApp (gameData a) (showCameras a) (negb (soundEnabled a))
              (prevGameStateRef a) (autoAdvance a) (randomCalls a)
      else a
  | AutoAdvance =>
      match autoAdvance a with
      | Some t =>
          setGameData (initializeNight (nextNight t) (gameData a))
            (mkApp (gameData a) (showCameras a) (soundEnabled a)
                   (prevGameStateRef a) None (randomCalls a))
      | None => a
      end
  end.

Definition run (rnd : Rng) (evs : list Event) (a : App) : App :=
  fold_left (fun a e => step rnd e a) evs a.

(** The component after mounting: the effect has run once, on [menu]. *)
Definition initialApp : App :=
  mkApp initialGameData false true menu None 0.

(** The phase the current phase was entered from, in the spec's words
    "the immediately preceding phase": updated whenever a commit changes
    the phase; [None] until the first change. *)
Fixpoint precedingPhase (rnd : Rng) (evs : list Event) (a : App)
    (from : option GameState) : option GameState :=
  match evs with
  | [] => from
  | e :: evs' =>
      let a' := step rnd e a in
      precedingPhase rnd evs' a'
        (if GameState_eqb (phase a) (phase a') then from else Some (phase a))
  end.

(** ** Auxiliary definitions used in the statements *)

(** [n] successive calls of [switchCamera camera]; the notices raised,
    in order. *)
Fixpoint switchCameraTimes (n : nat) (camera : Z) (prev : GameData)
    : GameData * list string :=
  match n with
  | O => (prev, [])
  | S n' =>
      let (d, notice) := switchCamera camera prev in
      let (d', notices) := switchCameraTimes n' camera d in
      (d', match notice with Some t => t :: notices | None => notices end)
  end.

(** [n] successive scheduler callbacks on one actor, the doors and the
    boss flag staying as in [prev]. *)
Fixpoint stepTimes (rnd : Rng) (prev : GameData) (n : nat) (i : nat)
    (a : Animatronic) : Animatronic :=
  match n with
  | O => a
  | S n' =>
      let s := stepAnimatronic rnd prev i a in
      stepTimes rnd prev n' (draws s) (returned s)
  end.

(** The at-door flag agrees with the location. *)
Definition doorInvariant (d : GameData) : Prop :=
  Forall (fun a => atDoor a = isDoor (location a)) (animatronics d).


(** The power level is a number from 0 to 100. *)
Definition powerInRange (d : GameData) : Prop :=
  (0 <=? power d)%float = true /\ (power d <=? 100)%float = true.

(** The movement rule in the spec's words: the dwell threshold of each
    location and the next node of the directed graph, the hallway
    branching on a draw. *)
Definition dwellThreshold (l : CameraLocation) : Z :=
  match l with stage => 80 | cam3 => 90 | _ => 100 end.

Definition nextNode (l : CameraLocation) (draw : float) : CameraLocation :=
  match l with
  | stage => cam3
  | cam3 => cam1
  | cam1 => if (draw <? 0.5)%float then leftDoor else rightDoor
  | _ => stage
  end.

(** What the auto-advance effect is to maintain: a timeout is pending
    exactly in a [menu] entered from [playing], for the night after the
    one cleared; the ref holds [playing] in such a menu, [menu] in any
    other menu, and the phase itself outside the menu. *)
Definition enteredFromPlaying (from : option GameState) : bool :=
  match from with Some playing => true | _ => false end.

Definition autoAdvanceInvariant (a : App) (from : option GameState) : Prop :=
  autoAdvance a
  = (if GameState_eqb (phase a) menu && enteredFromPlaying from
     then Some (mkTimeout 2000 (night (gameData a) + 1)) else None)
  /\ prevGameStateRef a
     = (if GameState_eqb (phase a) menu
        then (if enteredFromPlaying from then playing else menu)
        else phase a).

(** ** Sample runs

    Random sources, and runs of the component from its initial state in
    which both intervals tick together. *)
Definition alwaysLow : Rng := fun _ => 0.01%float.
Definition alwaysHigh : Rng := fun _ => 0.9%float.

Definition tick : Event := Commit [GameTimer; MoveTimer].

(** With high draws the actors reach the right door on tick 270; the
    player shuts it for one tick.  [quietTicks 89] is a whole night. *)
Definition quietTicks (n : nat) : list Event :=
  repeat tick 270
  ++ [Commit [ToggleDoor right]; tick; Commit [ToggleDoor right]]
  ++ repeat tick n.

(** Night 1, one tick before it ends. *)
Definition lastMinute : GameData :=
  gameData (run alwaysHigh (Commit [StartGame] :: quietTicks 88) initialApp).

(** Night 1 with both doors shut and the cameras open, after 181 ticks. *)
Definition outOfPower : GameData :=
  gameData (run alwaysHigh
              (Commit [StartGame] :: ToggleCameras
               :: Commit [ToggleDoor left; ToggleDoor right] :: repeat tick 181)
              initialApp).

(** Night 1 with the doors left open, after 349 ticks. *)
Definition stalledAtRightDoor : GameData :=
  gameData (run alwaysHigh (Commit [StartGame] :: repeat tick 349) initialApp).

(** Four nights survived, then 85 ticks of the boss night; 93 random
    draws have been made by then. *)
Definition fourNights : list Event :=
  Commit [StartGame] :: quietTicks 89
  ++ AutoAdvance :: quietTicks 89
  ++ AutoAdvance :: quietTicks 89
  ++ AutoAdvance :: quietTicks 89
  ++ [AutoAdvance].

Definition bossNight : GameData :=
  gameData (run alwaysHigh (fourNights ++ repeat tick 85) initialApp).

Definition deddyAtCam3 : Animatronic :=
  mkAnimatronic Deddy cam3 true 5 false true (Some 0).

Definition genAtRightDoor : Animatronic :=
  mkAnimatronic Gen rightDoor true 79 true false (Some 79).



(** The states found by 270 successive scheduler ticks of night 4 during
    which the player shuts both doors after the 100th. *)
Definition doorsShutMidway : list GameData :=
  repeat (initializeNight 4 initialGameData) 100
  ++ repeat (toggleDoor right (toggleDoor left (initializeNight 4 initialGameData))) 170.

(** ** Presentation: camera feed and clock *)

(** What [getCameraView] puts on screen: the feed of camera 1 or 3 with
    the name it reports, if any; the stage with the names it lists; or
    nothing ([null]). *)
Inductive CameraView :=
  | Cam1View (here : option AnimatronicType)
  | Cam3View (here : option AnimatronicType)
  | StageView (onStage : list AnimatronicType)
  | NoView.

Definition isAt (l : CameraLocation) (a : Animatronic) : bool :=
  CameraLocation_eqb (location a) l.

Definition getCameraView (d : GameData) : CameraView :=
  if currentCamera d =? 1 then
    Cam1View (option_map name (find (isAt cam1) (animatronics d)))
  else if currentCamera d =? 3 then
    Cam3View (option_map name (find (isAt cam3) (animatronics d)))
  else if currentCamera d =? 4 then
    StageView (map name (filter (isAt stage) (animatronics d)))
  else NoView.



(** [`${12 + Math.floor(time / 60)} AM`] *)
Definition formatTime (time : Z) : string :=
  (NilZero.string_of_int (Z.to_int (12 + time / 60)) ++ " AM")%string.

(** ** Further definitions used in the statements *)

(** The actors and active flags [initializeNight] sets up, night by
    night. *)
Definition activation (night : Z) : list (AnimatronicType * bool) :=
  [ (Deddy, 4 <=? night);
    (Gen, (1 <=? night) && negb (night =? 5));
    (Poppy, (1 <=? night) && negb (night =? 5)) ].

(** An actor whose next scheduler callback leaves it flagged at a door
    with a stall counter of 80 or more. *)
Definition breaches (prev : GameData) (a : Animatronic) : bool :=
  atDoor a
  && (if isActive a then
        negb (isBlockedByDoor a (leftDoorClosed prev) (rightDoorClosed prev))
        && (80 <=? orZero (doorTimer a) + 1)
      else 80 <=? orZero (doorTimer a)).

(** The random cursor after [n] callbacks on one actor (see [stepTimes]). *)
Fixpoint drawsTimes (rnd : Rng) (prev : GameData) (n : nat) (i : nat)
    (a : Animatronic) : nat :=
  match n with
  | O => i
  | S n' =>
      let s := stepAnimatronic rnd prev i a in
      drawsTimes rnd prev n' (draws s) (returned s)
  end.

(** Successive callbacks on one actor, each with the state its tick
    finds: the resulting actor and random cursor. *)
Fixpoint stepThrough (rnd : Rng) (prevs : list GameData) (i : nat)
    (a : Animatronic) : Animatronic * nat :=
  match prevs with
  | [] => (a, i)
  | prev :: prevs' =>
      let s := stepAnimatronic rnd prev i a in
      stepThrough rnd prevs' (draws s) (returned s)
  end.

(** Where an actor activated by night initialisation stands after [m]
    callbacks, [m] from 0 to 269, when no boss jump intervenes. *)
Definition walkAt (n : AnimatronicType) (m : Z) : Animatronic :=
  if m <? 80 then mkAnimatronic n stage true m false false (Some 0)
  else if m <? 170 then
    mkAnimatronic n cam3 true (m - 80) false (AnimatronicType_eqb n Deddy) (Some 0)
  else
    mkAnimatronic n cam1 true (m - 170) false (AnimatronicType_eqb n Deddy) (Some 0).

(** The cast is fixed, an inactive actor stands untouched on the stage,
    boss mode goes with night 5, and the active flags are those of the
    night (or all clear, before the first night is started). *)
Definition rosterInvariant (d : GameData) : Prop :=
  map name (animatronics d) = [Deddy; Gen; Poppy]
  /\ Forall (fun a => isActive a = false -> a = freshAnimatronic (name a) false)
            (animatronics d)
  /\ bossMode d = (night d =? 5)
  /\ (map (fun a => (name a, isActive a)) (animatronics d) = activation (night d)
      \/ night d = 1 /\ map isActive (animatronics d) = [false; false; false]).

Definition timeInRange (d : GameData) : Prop := 0 <= time d < NIGHT_DURATION.

Definition isStartGame (u : Update) : bool :=
  match u with StartGame => true | _ => false end.

Definition isRestartGame (u : Update) : bool :=
  match u with RestartGame => true | _ => false end.

(** The campaign: nights 1 to 5; a menu reached by clearing a night is
    not that of night 5; the victory screen is that of night 5. *)
Definition campaignInvariant (a : App) (from : option GameState) : Prop :=
  autoAdvanceInvariant a from
  /\ 1 <= night (gameData a) <= 5
  /\ (phase a = menu -> enteredFromPlaying from = true -> night (gameData a) < 5)
  /\ (phase a = victory -> night (gameData a) = 5).

(** * Binary64 subtraction

    Facts about IEEE subtraction and comparison, proved on the
    specification [SpecFloat] that the primitive operations are defined
    to follow.  The one used later: subtracting a positive finite number
    from a non-negative float never gives more than the float. *)

Module Binary64.

Lemma digits2_pos_size (p : positive) : digits2_pos p = Pos.size p.
Proof. induction p as [p IH|p IH|]; simpl; now rewrite ?IH. Qed.

Lemma digits2_pos_bounds (p : positive) :
  2 ^ (Zpos (digits2_pos p) - 1) <= Zpos p < 2 ^ Zpos (digits2_pos p).
Proof.
  rewrite digits2_pos_size.
  pose proof (Pos.size_gt p) as Hgt.
  pose proof (Pos.size_le p) as Hle.
  apply Pos2Z.pos_lt_pos in Hgt. apply Pos2Z.pos_le_pos in Hle.
  rewrite Pos2Z.inj_pow in Hgt, Hle.
  assert (Hs : 2 ^ Zpos (Pos.size p) = 2 * 2 ^ (Zpos (Pos.size p) - 1)).
  { rewrite <- Z.pow_succ_r by lia. f_equal. lia. }
  change (Zpos p~0) with (2 * Zpos p) in Hle. split; [lia | exact Hgt].
Qed.

Lemma Zdigits2_le_pow (m k : Z) :
  0 <= k -> 0 <= m < 2 ^ k -> Zdigits2 m <= k.
Proof.
  intros Hk [H0 Hm]. destruct m as [|p|p]; simpl; [lia| |lia].
  destruct (digits2_pos_bounds p) as [Hlo _].
  destruct (Z.le_gt_cases (Zpos (digits2_pos p)) k) as [|Hgt]; [assumption|].
  assert (2 ^ k <= 2 ^ (Zpos (digits2_pos p) - 1)) by (apply Z.pow_le_mono_r; lia).
  lia.
Qed.

Lemma Zdigits2_mono (a b : Z) : 0 <= a <= b -> Zdigits2 a <= Zdigits2 b.
Proof.
  intros [Ha Hab]. destruct b as [|q|q]; [| |lia].
  - assert (a = 0) by lia. subst. lia.
  - apply Zdigits2_le_pow; [simpl; lia|].
    simpl. destruct (digits2_pos_bounds q). lia.
Qed.

Lemma Zdigits2_unique (m k : Z) :
  2 ^ (k - 1) <= m < 2 ^ k -> 0 < k -> Zdigits2 m = k.
Proof.
  intros [Hlo Hhi] Hk.
  assert (0 < m) by (pose proof (Z.pow_pos_nonneg 2 (k - 1)); lia).
  destruct m as [|p|p]; try lia. simpl.
  destruct (digits2_pos_bounds p) as [Hl Hh].
  set (d := Zpos (digits2_pos p)) in *.
  assert (d - 1 < k) by (apply (Z.pow_lt_mono_r_iff 2); lia).
  assert (k - 1 < d) by (apply (Z.pow_lt_mono_r_iff 2); lia).
  lia.
Qed.

Lemma Zdigits2_shift (p : positive) (j : Z) :
  0 <= j -> Zdigits2 (Zpos p * 2 ^ j) = Zpos (digits2_pos p) + j.
Proof.
  intros Hj. destruct (digits2_pos_bounds p) as [Hl Hh].
  apply Zdigits2_unique; [|lia].
  replace (Zpos (digits2_pos p) + j - 1) with ((Zpos (digits2_pos p) - 1) + j) by lia.
  rewrite !Z.pow_add_r by lia.
  pose proof (Z.pow_pos_nonneg 2 j). nia.
Qed.

(** [iter_pos] is plain iteration. *)
Lemma iter_pos_nat {A} (f : A -> A) (p : positive) (x : A) :
  iter_pos f p x = Nat.iter (Pos.to_nat p) f x.
Proof.
  revert x. induction p as [p IH|p IH|]; intros x; simpl iter_pos.
  - rewrite !IH, Pos2Nat.inj_xI.
    replace (S (2 * Pos.to_nat p)) with (Pos.to_nat p + S (Pos.to_nat p))%nat by lia.
    rewrite Nat.iter_add. f_equal. symmetry. apply Nat.iter_succ_r.
  - rewrite !IH, Pos2Nat.inj_xO.
    replace (2 * Pos.to_nat p)%nat with (Pos.to_nat p + Pos.to_nat p)%nat by lia.
    now rewrite Nat.iter_add.
  - reflexivity.
Qed.

Lemma shr_1_m (mrs : shr_record) :
  0 <= shr_m mrs -> shr_m (shr_1 mrs) = shr_m mrs / 2.
Proof.
  destruct mrs as [m r s]. simpl. intros Hm. rewrite <- Z.div2_div.
  destruct m as [|[p|p|]|p]; try reflexivity; lia.
Qed.

Lemma iter_shr_1_m (n : nat) (mrs : shr_record) :
  0 <= shr_m mrs ->
  shr_m (Nat.iter n shr_1 mrs) = shr_m mrs / 2 ^ Z.of_nat n.
Proof.
  intros Hm. induction n as [|n IH].
  - simpl. now rewrite Z.div_1_r.
  - rewrite Nat.iter_succ.
    rewrite shr_1_m; rewrite IH; [|apply Z.div_pos; [lia|apply Z.pow_pos_nonneg; lia]].
    rewrite Nat2Z.inj_succ, Z.pow_succ_r by lia.
    rewrite Z.div_div by (try apply Z.pow_pos_nonneg; lia).
    f_equal. lia.
Qed.

Lemma iter_shr_1_exact (n : nat) (M : Z) :
  0 <= M ->
  Nat.iter n shr_1 (Build_shr_record (M * 2 ^ Z.of_nat n) false false)
  = Build_shr_record M false false.
Proof.
  revert M. induction n as [|n IH]; intros M HM.
  - simpl. f_equal. lia.
  - rewrite Nat.iter_succ. rewrite Nat2Z.inj_succ, Z.pow_succ_r by lia.
    replace (M * (2 * 2 ^ Z.of_nat n)) with ((2 * M) * 2 ^ Z.of_nat n) by lia.
    rewrite IH by lia.
    destruct M as [|p|p]; try reflexivity; lia.
Qed.

Lemma shr_m_spec (mrs : shr_record) (e n : Z) :
  0 <= shr_m mrs ->
  shr_m (fst (shr mrs e n)) = shr_m mrs / 2 ^ Z.max n 0.
Proof.
  intros Hm. destruct n as [|p|p]; simpl fst.
  - simpl. now rewrite Z.div_1_r.
  - rewrite iter_pos_nat, iter_shr_1_m by assumption.
    now rewrite positive_nat_Z, Z.max_l by lia.
  - rewrite Z.max_r by lia. simpl. now rewrite Z.div_1_r.
Qed.

Lemma shr_e_spec (mrs : shr_record) (e n : Z) :
  snd (shr mrs e n) = e + Z.max n 0.
Proof. destruct n; simpl; lia. Qed.

Lemma round_nearest_even_bounds (m : Z) (l : SpecFloat.location) :
  m <= round_nearest_even m l <= m + 1.
Proof. destruct l as [|[]]; simpl; try destruct (Z.even m); lia. Qed.

(** Rounding never passes a point of the grid it rounds to. *)
Lemma shr_round_grid (m M e n : Z) :
  0 <= m <= M * 2 ^ Z.max n 0 ->
  let R := fst (shr (Build_shr_record m false false) e n) in
  round_nearest_even (shr_m R) (loc_of_shr_record R) <= M.
Proof.
  intros [H0 HM] R.
  assert (Hpow : 0 < 2 ^ Z.max n 0) by (apply Z.pow_pos_nonneg; lia).
  assert (Hq : shr_m R = m / 2 ^ Z.max n 0) by (apply (shr_m_spec (Build_shr_record m false false)); simpl; lia).
  assert (HqM : m / 2 ^ Z.max n 0 <= M) by (apply Z.div_le_upper_bound; lia).
  destruct (Z.eq_dec (m / 2 ^ Z.max n 0) M) as [Heq|Hne].
  - assert (m = M * 2 ^ Z.max n 0).
    { pose proof (Z.mul_div_le m (2 ^ Z.max n 0) Hpow). rewrite Heq in *. lia. }
    assert (HR : R = Build_shr_record M false false).
    { subst R m. destruct n as [|p|p]; unfold shr; cbn [fst].
      - f_equal. change (Z.max 0 0) with 0. rewrite Z.pow_0_r. lia.
      - change (Z.max (Zpos p) 0) with (Zpos p) in *.
        assert (0 <= M) by nia.
        rewrite iter_pos_nat, <- (positive_nat_Z p). now apply iter_shr_1_exact.
      - f_equal. change (Z.max (Zneg p) 0) with 0. rewrite Z.pow_0_r. lia. }
    rewrite HR. simpl. lia.
  - pose proof (round_nearest_even_bounds (shr_m R) (loc_of_shr_record R)). lia.
Qed.


Lemma fexp_mono (a b : Z) : a <= b -> fexp prec emax a <= fexp prec emax b.
Proof. unfold fexp. lia. Qed.

Lemma fexp_ge_emin (a : Z) : emin <= fexp prec emax a.
Proof. unfold fexp. lia. Qed.

Lemma Pos_iter_xO (m d : positive) : Zpos (Pos.iter xO m d) = Zpos m * 2 ^ Zpos d.
Proof.
  rewrite Pos2Nat.inj_iter, <- (positive_nat_Z d).
  induction (Pos.to_nat d) as [|n IH].
  - simpl. lia.
  - cbn [nat_rect]. rewrite Nat2Z.inj_succ, Z.pow_succ_r by lia.
    set (q := nat_rect _ _ _ n) in *.
    change (Zpos q~0) with (2 * Zpos q). lia.
Qed.

Lemma shl_align_spec (m : positive) (e e0 : Z) :
  snd (shl_align m e e0) = Z.min e e0 /\
  Zpos (fst (shl_align m e e0)) = Zpos m * 2 ^ (e - Z.min e e0).
Proof.
  unfold shl_align. destruct (e0 - e) as [|d|d] eqn:Hd; cbn [fst snd].
  - rewrite Z.min_l by lia. rewrite Z.sub_diag. simpl. lia.
  - rewrite Z.min_l by lia. rewrite Z.sub_diag. simpl. lia.
  - rewrite Z.min_r by lia. split; [reflexivity|].
    rewrite Pos_iter_xO. f_equal. f_equal. lia.
Qed.

Lemma compare_cont_le (m mx : positive) :
  Zpos m <= Zpos mx ->
  Pos.compare_cont Eq m mx = Lt \/ Pos.compare_cont Eq m mx = Eq.
Proof.
  intros H. change (Pos.compare_cont Eq m mx) with (Pos.compare m mx).
  destruct (Pos.compare_spec m mx); auto. lia.
Qed.

(** Rounding a positive value that lies at or below a representable
    [x] gives a float at or below [x]. *)
Lemma binary_round_le (p : positive) (ez : Z) (mx : positive) (ex : Z) :
  bounded prec emax mx ex = true ->
  ez <= ex ->
  Zpos p <= Zpos mx * 2 ^ (ex - ez) ->
  SFleb (binary_round prec emax false p ez) (S754_finite false mx ex) = true.
Proof.
  intros Hb Hez Hp.
  unfold bounded, canonical_mantissa in Hb.
  apply andb_prop in Hb. destruct Hb as [Hcan Hex].
  apply Z.eqb_eq in Hcan. apply Z.leb_le in Hex.
  destruct (digits2_pos_bounds mx) as [Hmxlo Hmxhi].
  destruct (digits2_pos_bounds p) as [Hplo Hphi].
  set (dx := Zpos (digits2_pos mx)) in *.
  set (dp := Zpos (digits2_pos p)) in *.
  set (E := fexp prec emax (dp + ez)).
  assert (Hdx : 0 < dx) by (subst dx; lia).
  assert (Hdp : 0 < dp) by (subst dp; lia).
  (* the exact value has no more digits than x *)
  assert (Hdig : dp + ez <= dx + ex).
  { assert (Zdigits2 (Zpos p) <= dx + (ex - ez)).
    { apply Zdigits2_le_pow; [lia|]. split; [lia|].
      rewrite Z.pow_add_r by lia.
      assert (0 < 2 ^ (ex - ez)) by (apply Z.pow_pos_nonneg; lia). nia. }
    change (Zdigits2 (Zpos p)) with dp in H. lia. }
  assert (HEex : E <= ex).
  { subst E. rewrite <- Hcan. apply fexp_mono. exact Hdig. }
  assert (HEmin : emin <= E) by apply fexp_ge_emin.
  assert (HEdp : dp + ez - prec <= E) by (subst E; unfold fexp; lia).
  unfold binary_round. fold dp. fold E.
  destruct (shl_align_spec p ez E) as [Hez' Hmz].
  rewrite (surjective_pairing (shl_align p ez E)).
  set (mz := fst (shl_align p ez E)) in *.
  set (ez' := snd (shl_align p ez E)) in *.
  assert (Hdz : Zdigits2 (Zpos mz) + ez' = dp + ez).
  { rewrite Hmz, Zdigits2_shift by lia. fold dp. lia. }
  unfold binary_round_aux, shr_fexp.
  rewrite Hdz. fold E. cbn [shr_record_of_loc].
  set (S1 := shr (Build_shr_record (Zpos mz) false false) ez' (E - ez')).
  rewrite (surjective_pairing S1).
  set (R1 := fst S1). set (e1 := snd S1).
  assert (He1 : e1 = E).
  { subst e1 S1. rewrite shr_e_spec. lia. }
  assert (Hq1 : shr_m R1 = Zpos mz / 2 ^ (E - ez')).
  { subst R1 S1. rewrite shr_m_spec by (simpl; lia). cbn [shr_m]. f_equal. f_equal. lia. }
  set (r1 := round_nearest_even (shr_m R1) (loc_of_shr_record R1)).
  assert (Hr1 : shr_m R1 <= r1 <= shr_m R1 + 1) by apply round_nearest_even_bounds.
  assert (Hpow1 : 0 < 2 ^ (E - ez')) by (apply Z.pow_pos_nonneg; lia).
  assert (Hq1pos : 0 <= shr_m R1) by (rewrite Hq1; apply Z.div_pos; lia).
  (* after the first shift at most [prec] digits are left *)
  assert (Hr1P : r1 <= 2 ^ prec).
  { assert (shr_m R1 < 2 ^ prec); [|lia].
    rewrite Hq1. apply Z.div_lt_upper_bound; [lia|].
    rewrite <- Z.pow_add_r by (unfold prec; lia).
    apply Z.lt_le_trans with (2 ^ (dp + ez - ez')).
    - rewrite Hmz. replace (dp + ez - ez') with (dp + (ez - ez')) by lia.
      rewrite Z.pow_add_r by lia.
      assert (0 < 2 ^ (ez - ez')) by (apply Z.pow_pos_nonneg; lia).
      replace (ez - Z.min ez E) with (ez - ez') by lia. nia.
    - apply Z.pow_le_mono_r; lia. }
  set (k2 := fexp prec emax (Zdigits2 r1 + e1) - e1).
  set (S2 := shr (Build_shr_record r1 false false) e1 k2).
  rewrite (surjective_pairing S2).
  set (R2 := fst S2). set (e2 := snd S2).
  assert (He2 : e2 = E + Z.max k2 0).
  { subst e2 S2. rewrite shr_e_spec. lia. }
  assert (Hm2 : shr_m R2 = r1 / 2 ^ Z.max k2 0).
  { subst R2 S2. rewrite shr_m_spec by (simpl; lia). reflexivity. }
  assert (Hk2 : k2 <= 1).
  { subst k2. rewrite He1.
    assert (Zdigits2 r1 <= prec + 1).
    { apply Zdigits2_le_pow; [unfold prec; lia|]. split; [lia|].
      rewrite Z.pow_add_r by (unfold prec; lia). change (2 ^ 1) with 2.
      assert (0 < 2 ^ prec) by (apply Z.pow_pos_nonneg; unfold prec; lia). lia. }
    unfold fexp in *. lia. }
  assert (Hpow2 : 0 < 2 ^ Z.max k2 0) by (apply Z.pow_pos_nonneg; lia).
  assert (Hm2pos : 0 <= shr_m R2) by (rewrite Hm2; apply Z.div_pos; lia).
  (* the exponent does not pass [ex]; when it reaches it the mantissa
     does not pass [mx] *)
  assert (Hfin : e2 <= ex /\ (e2 = ex -> shr_m R2 <= Zpos mx)).
  { destruct (Z.eq_dec E ex) as [HE|HE].
    - (* same binade as x: the grid argument *)
      assert (Hz : ez' = ez) by lia.
      assert (Hmzp : Zpos mz = Zpos p).
      { rewrite Hmz. replace (ez - Z.min ez E) with 0 by lia. simpl. lia. }
      assert (Hgrid : r1 <= Zpos mx).
      { subst r1 R1 S1. apply shr_round_grid.
        rewrite Hmzp, Hz, HE.
        rewrite Z.max_l by lia. lia. }
      assert (k2 <= 0).
      { subst k2. rewrite He1, HE.
        assert (Zdigits2 r1 <= dx).
        { change dx with (Zdigits2 (Zpos mx)). apply Zdigits2_mono. lia. }
        rewrite <- Hcan at 2. 
        assert (fexp prec emax (Zdigits2 r1 + ex) <= fexp prec emax (dx + ex)) by (apply fexp_mono; lia).
        lia. }
      rewrite Hm2, He2. rewrite Z.max_r by lia. simpl (2 ^ 0). rewrite Z.div_1_r. lia.
    - (* a lower binade: at most one carry *)
      split; [lia|]. intros Heq.
      assert (Hk21 : Z.max k2 0 = 1) by lia.
      rewrite Hm2, Hk21.
      assert (ex <> emin) by lia.
      assert (Hnorm : dx = prec) by (unfold fexp in Hcan; lia).
      assert (r1 / 2 ^ 1 <= 2 ^ prec / 2 ^ 1) by (apply Z.div_le_mono; [reflexivity | exact Hr1P]).
      assert (2 ^ (prec - 1) <= Zpos mx) by (rewrite <- Hnorm; exact Hmxlo).
      change (2 ^ prec / 2 ^ 1) with (2 ^ (prec - 1)) in H0. lia. }
  destruct Hfin as [Hfe Hfm].
  destruct (shr_m R2) as [|m2|m2] eqn:HR2; [reflexivity| |lia].
  replace (e2 <=? emax - prec) with true by (symmetry; apply Z.leb_le; lia).
  unfold SFleb, SFcompare.
  destruct (Z.compare_spec e2 ex) as [Heq|Hlt|Hgt]; [|reflexivity|lia].
  destruct (compare_cont_le m2 mx (Hfm Heq)) as [-> | ->]; reflexivity.
Qed.


Lemma binary_round_neg_le (p : positive) (e : Z) (mx : positive) (ex : Z) :
  SFleb (binary_round prec emax true p e) (S754_finite false mx ex) = true.
Proof.
  unfold binary_round.
  rewrite (surjective_pairing (shl_align _ _ _)).
  unfold binary_round_aux, shr_fexp. cbn [shr_record_of_loc].
  set (S1 := shr _ _ _). rewrite (surjective_pairing S1).
  set (r1 := round_nearest_even _ _).
  set (S2 := shr _ _ _). rewrite (surjective_pairing S2).
  assert (H1 : 0 <= shr_m (fst S1)).
  { subst S1. rewrite shr_m_spec by (simpl; lia). cbn [shr_m].
    apply Z.div_pos; [lia | apply Z.pow_pos_nonneg; lia]. }
  assert (Hr1 : 0 <= r1).
  { pose proof (round_nearest_even_bounds (shr_m (fst S1)) (loc_of_shr_record (fst S1))).
    subst r1. lia. }
  assert (H2 : 0 <= shr_m (fst S2)).
  { subst S2. rewrite shr_m_spec by (simpl; lia). cbn [shr_m].
    apply Z.div_pos; [lia | apply Z.pow_pos_nonneg; lia]. }
  destruct (shr_m (fst S2)) as [|m2|m2]; [reflexivity| |lia].
  destruct (snd S2 <=? emax - prec); reflexivity.
Qed.

(** Subtracting a positive finite number from a non-negative one never
    gives more than one started with (and never NaN). *)
Lemma SFsub_pos_le (x : spec_float) (md : positive) (ed : Z) :
  valid_binary x = true ->
  SFleb (S754_zero false) x = true ->
  SFleb (SF64sub x (S754_finite false md ed)) x = true.
Proof.
  intros Hv H0. destruct x as [s|s| |s mx ex].
  - reflexivity.
  - destruct s; [discriminate H0 | reflexivity].
  - discriminate H0.
  - destruct s; [discriminate H0|].
    unfold SF64sub, SFsub, cond_Zopp, binary_normalize.
    destruct (shl_align_spec mx ex (Z.min ex ed)) as [_ Hx].
    destruct (shl_align_spec md ed (Z.min ex ed)) as [_ Hd].
    rewrite Hx, Hd.
    replace (Z.min ex (Z.min ex ed)) with (Z.min ex ed) by lia.
    replace (Z.min ed (Z.min ex ed)) with (Z.min ex ed) by lia.
    assert (0 < Zpos md * 2 ^ (ed - Z.min ex ed)).
    { apply Z.mul_pos_pos; [lia | apply Z.pow_pos_nonneg; lia]. }
    destruct (Zpos mx * 2 ^ (ex - Z.min ex ed) - Zpos md * 2 ^ (ed - Z.min ex ed))
      as [|p|p] eqn:Hdiff.
    + reflexivity.
    + apply binary_round_le; [exact Hv | lia | lia].
    + apply binary_round_neg_le.
Qed.

Lemma SFcompare_refl (x : spec_float) : x <> S754_nan -> SFcompare x x = Some Eq.
Proof.
  destruct x as [s|s| |s m e]; intros H; try congruence; simpl.
  - reflexivity.
  - now destruct s.
  - rewrite Z.compare_refl.
    change (Pos.compare_cont Eq m m) with (Pos.compare m m).
    rewrite Pos.compare_refl. now destruct s.
Qed.

Lemma SFleb_trans (a b c : spec_float) :
  SFleb a b = true -> SFleb b c = true -> SFleb a c = true.
Proof.
  unfold SFleb, SFcompare.
  destruct a as [sa|sa| |sa ma ea], b as [sb|sb| |sb mb eb], c as [sc|sc| |sc mc ec];
    try discriminate; try reflexivity;
    try (destruct sa; try discriminate; try reflexivity);
    try (destruct sb; try discriminate; try reflexivity);
    try (destruct sc; try discriminate; try reflexivity);
    change (Pos.compare_cont Eq) with Pos.compare;
    destruct (Z.compare_spec ea eb); try discriminate;
    destruct (Z.compare_spec eb ec); try discriminate;
    destruct (Z.compare_spec ea ec); try reflexivity; try lia;
    try (destruct (Pos.compare_spec ma mb); try discriminate);
    try (destruct (Pos.compare_spec mb mc); try discriminate);
    try (destruct (Pos.compare_spec ma mc); try reflexivity); try lia.
Qed.

End Binary64.

(** The same facts on primitive floats. *)

Lemma Prim2SF_zero : Prim2SF 0%float = S754_zero false.
Proof. reflexivity. Qed.

Lemma leb_trans (a b c : float) :
  (a <=? b)%float = true -> (b <=? c)%float = true -> (a <=? c)%float = true.
Proof. rewrite !leb_spec. apply Binary64.SFleb_trans. Qed.

Lemma leb_refl_of_leb (a p : float) :
  (a <=? p)%float = true -> (p <=? p)%float = true.
Proof.
  rewrite !leb_spec. intros H. unfold SFleb.
  rewrite Binary64.SFcompare_refl; [reflexivity|].
  intros E. rewrite E in H. destruct (Prim2SF a); discriminate H.
Qed.

Lemma sub_pos_le (p d : float) (md : positive) (ed : Z) :
  Prim2SF d = S754_finite false md ed ->
  (0 <=? p)%float = true ->
  (p - d <=? p)%float = true.
Proof.
  intros Hd Hp. rewrite leb_spec, sub_spec, Hd.
  apply Binary64.SFsub_pos_le; [apply Prim2SF_valid|].
  now rewrite <- Prim2SF_zero, <- leb_spec.
Qed.

(** A number that is not [<= 0] and not NaN is above zero, and
    [Math.max(0, r)] is that number. *)
Lemma Math_max_above_zero (r p : float) :
  (r <=? 0)%float = false ->
  (r <=? p)%float = true ->
  Math_max 0 r = r /\ (0 <=? r)%float = true.
Proof.
  intros H0 Hp.
  assert (Hnan : Prim2SF r <> S754_nan).
  { rewrite leb_spec in Hp. intros E. rewrite E in Hp. discriminate Hp. }
  assert (Hlt : (0 <? r)%float = true).
  { rewrite ltb_spec, Prim2SF_zero. rewrite leb_spec, Prim2SF_zero in H0.
    destruct (Prim2SF r) as [s|s| |s m e]; try discriminate; try congruence;
      destruct s; try discriminate; reflexivity. }
  assert (Hle : (0 <=? r)%float = true).
  { rewrite leb_spec. rewrite ltb_spec in Hlt. unfold SFleb, SFltb in *.
    destruct (SFcompare (Prim2SF 0) (Prim2SF r)) as [[]|]; try discriminate; reflexivity. }
  split; [|exact Hle].
  unfold Math_max, is_nan.
  rewrite (eqb_spec r r). unfold SFeqb.
  rewrite (Binary64.SFcompare_refl _ Hnan).
  change (negb (0 =? 0)%float) with false. cbn [negb orb].
  now rewrite Hlt.
Qed.

(** * Runs of the component *)

Lemma setGameData_gameData (d : GameData) (a : App) :
  gameData (setGameData d a) = d.
Proof.
  unfold setGameData, autoAdvanceEffect.
  repeat match goal with |- context [if ?b then _ else _] => destruct b end;
    reflexivity.
Qed.

(** A property of the game state that every updater keeps holds after
    every commit of every run, and between the updaters of a commit. *)
Section Preserved.
Variable P : GameData -> Prop.
Variable rnd : Rng.
Hypothesis P_initializeNight : forall n d, P (initializeNight n d).
Hypothesis P_restartGame : forall d, P d -> P (restartGame d).
Hypothesis P_toggleDoor : forall s d, P d -> P (toggleDoor s d).
Hypothesis P_switchCamera : forall c d, P d -> P (fst (switchCamera c d)).
Hypothesis P_gameTick : forall c d, P d -> P (gameTick c d).
Hypothesis P_moveTick : forall i d, P d -> P (moveTick rnd i d).

Lemma applyUpdate_preserves (c : bool) (us : list Update) :
  forall s, P (fst s) -> P (fst (fold_left (applyUpdate rnd c) us s)).
Proof.
  induction us as [|u us IH]; intros [d i] Hd; [exact Hd|].
  cbn [fold_left]. apply IH.
  destruct u; cbn [applyUpdate fst]; unfold startGame; auto.
Qed.

Lemma applyUpdates_preserves (a : App) (us : list Update) :
  P (gameData a) -> P (fst (applyUpdates rnd a us)).
Proof. intros Ha. unfold applyUpdates. now apply applyUpdate_preserves. Qed.

Lemma run_preserves (evs : list Event) :
  forall a, P (gameData a) -> P (gameData (run rnd evs a)).
Proof.
  induction evs as [|e evs IH]; intros a Ha; [exact Ha|].
  cbn [run fold_left]. apply IH.
  destruct e; cbn [step].
  - pose proof (applyUpdates_preserves a updates Ha) as Hd.
    destruct (applyUpdates rnd a updates) as [d i].
    now rewrite setGameData_gameData.
  - now destruct (GameState_eqb (phase a) playing).
  - now destruct (GameState_eqb (phase a) playing).
  - destruct (autoAdvance a); [rewrite setGameData_gameData; auto | exact Ha].
Qed.
End Preserved.

(** * The clock/power ticker *)

(** C1, counterexample: night 1 played with both doors shut and the
    cameras open.  After 181 ticks 0.45 of power is left; the next tick
    ends the game and the elapsed time stays at 181: it is not
    incremented. *)
Lemma gameTick_gameOver_keeps_time :
  outOfPower
  = mkGameData 1 181 0.45000000000032014%float true true 4
      [ mkAnimatronic Deddy stage false 0 false false (Some 0);
        mkAnimatronic Gen cam1 true 11 false false (Some 0);
        mkAnimatronic Poppy cam1 true 11 false false (Some 0) ]
      playing false
  /\ gameTick true outOfPower
     = mkGameData 1 181 0%float true true 4
         [ mkAnimatronic Deddy stage false 0 false false (Some 0);
           mkAnimatronic Gen cam1 true 11 false false (Some 0);
           mkAnimatronic Poppy cam1 true 11 false false (Some 0) ]
         gameOver false
  /\ time (gameTick true outOfPower) <> time outOfPower + 1.
Proof.
  assert (E : outOfPower
    = mkGameData 1 181 0.45000000000032014%float true true 4
        [ mkAnimatronic Deddy stage false 0 false false (Some 0);
          mkAnimatronic Gen cam1 true 11 false false (Some 0);
          mkAnimatronic Poppy cam1 true 11 false false (Some 0) ]
        playing false) by (vm_compute; reflexivity).
  rewrite E. repeat split. discriminate.
Qed.

(** C1 (amended): a tick taken in [playing] applies the first rule that
    fires, in this order.  Power at or below 0 after the drain: the phase
    becomes [gameOver] and power 0, every other field, the elapsed time
    included, as before.  Otherwise elapsed time + 1 at or beyond 360:
    the phase becomes [victory] when the night is 5 or more and [menu]
    when it is less, every other field, time and power included, as
    before.  Otherwise the phase stays [playing], the time is
    incremented by one and the power is [Math.max(0, drained power)]. *)
Theorem gameTick_priority (showCameras : bool) (prev : GameData) :
  gameState prev = playing ->
  let newPower := (power prev - powerDrain showCameras prev)%float in
  let next := gameTick showCameras prev in
  NIGHT_DURATION = 360
  /\ ((newPower <=? 0)%float = true ->
      next = mkGameData (night prev) (time prev) 0%float
               (leftDoorClosed prev) (rightDoorClosed prev) (currentCamera prev)
               (animatronics prev) gameOver (bossMode prev))
  /\ ((newPower <=? 0)%float = false -> NIGHT_DURATION <= time prev + 1 ->
      next = mkGameData (night prev) (time prev) (power prev)
               (leftDoorClosed prev) (rightDoorClosed prev) (currentCamera prev)
               (animatronics prev) (if 5 <=? night prev then victory else menu)
               (bossMode prev)
      /\ (night prev = 5 -> gameState next = victory)
      /\ (night prev < 5 -> gameState next = menu))
  /\ ((newPower <=? 0)%float = false -> time prev + 1 < NIGHT_DURATION ->
      next = mkGameData (night prev) (time prev + 1) (Math_max 0 newPower)
               (leftDoorClosed prev) (rightDoorClosed prev) (currentCamera prev)
               (animatronics prev) playing (bossMode prev)).
Proof.
  intros Hplay newPower next. subst next. unfold gameTick. fold newPower.
  split; [reflexivity|]. split; [|split].
  - intros ->. reflexivity.
  - intros -> Hend. apply Z.leb_le in Hend. rewrite Hend.
    split; [|split].
    + now destruct (5 <=? night prev).
    + intros ->. reflexivity.
    + intros Hn. apply Z.leb_gt in Hn. now rewrite Hn.
  - intros -> Hlt. apply Z.leb_gt in Hlt. rewrite Hlt.
    unfold set_power, set_time. cbn. now rewrite Hplay.
Qed.

Lemma gameTick_priority_witness :
  let prev := initializeNight 1 initialGameData in
  let newPower := (power prev - powerDrain false prev)%float in
  let next := gameTick false prev in
  NIGHT_DURATION = 360
  /\ ((newPower <=? 0)%float = true ->
      next = mkGameData (night prev) (time prev) 0%float
               (leftDoorClosed prev) (rightDoorClosed prev) (currentCamera prev)
               (animatronics prev) gameOver (bossMode prev))
  /\ ((newPower <=? 0)%float = false -> NIGHT_DURATION <= time prev + 1 ->
      next = mkGameData (night prev) (time prev) (power prev)
               (leftDoorClosed prev) (rightDoorClosed prev) (currentCamera prev)
               (animatronics prev) (if 5 <=? night prev then victory else menu)
               (bossMode prev)
      /\ (night prev = 5 -> gameState next = victory)
      /\ (night prev < 5 -> gameState next = menu))
  /\ ((newPower <=? 0)%float = false -> time prev + 1 < NIGHT_DURATION ->
      next = mkGameData (night prev) (time prev + 1) (Math_max 0 newPower)
               (leftDoorClosed prev) (rightDoorClosed prev) (currentCamera prev)
               (animatronics prev) playing (bossMode prev)).
Proof.
  exact (gameTick_priority false (initializeNight 1 initialGameData) eq_refl).
Defined.

Lemma powerDrain_finite (showCameras : bool) (prev : GameData) :
  exists md ed, Prim2SF (powerDrain showCameras prev) = S754_finite false md ed.
Proof.
  unfold powerDrain.
  destruct (leftDoorClosed prev), (rightDoorClosed prev), showCameras;
    vm_compute; eauto.
Qed.

(** C2, counterexample: night 1, one tick before it ends.  The drain is
    0.05 and [power - drain] would be 81.85, yet the tick that ends the
    night leaves the stored power as it was: nothing is subtracted. *)
Lemma gameTick_night_end_keeps_power :
  lastMinute
  = mkGameData 1 359 81.900000000001015%float false false 4
      [ mkAnimatronic Deddy stage false 0 false false (Some 0);
        mkAnimatronic Gen cam3 true 8 false false (Some 0);
        mkAnimatronic Poppy cam3 true 8 false false (Some 0) ]
      playing false
  /\ gameTick false lastMinute
     = mkGameData 1 359 81.900000000001015%float false false 4
         [ mkAnimatronic Deddy stage false 0 false false (Some 0);
           mkAnimatronic Gen cam3 true 8 false false (Some 0);
           mkAnimatronic Poppy cam3 true 8 false false (Some 0) ]
         menu false
  /\ powerDrain false lastMinute = 0.05%float
  /\ (power lastMinute - powerDrain false lastMinute)%float
     = 81.850000000001017%float
  /\ power (gameTick false lastMinute) = power lastMinute.
Proof.
  assert (E : lastMinute
    = mkGameData 1 359 81.900000000001015%float false false 4
        [ mkAnimatronic Deddy stage false 0 false false (Some 0);
          mkAnimatronic Gen cam3 true 8 false false (Some 0);
          mkAnimatronic Poppy cam3 true 8 false false (Some 0) ]
        playing false) by (vm_compute; reflexivity).
  rewrite E. repeat split.
Qed.

(** The three outcomes of a tick, as far as the power is concerned. *)
Lemma gameTick_power_cases (showCameras : bool) (prev : GameData) :
  (0 <=? power prev)%float = true ->
  let drained := (power prev - powerDrain showCameras prev)%float in
  let next := gameTick showCameras prev in
  (gameState next = gameOver /\ power next = 0%float)
  \/ ((gameState next = menu \/ gameState next = victory)
      /\ power next = power prev)
  \/ (gameState next = gameState prev /\ power next = drained
      /\ (0 <=? drained)%float = true /\ (drained <=? power prev)%float = true).
Proof.
  intros H0 drained next.
  destruct (powerDrain_finite showCameras prev) as (md & ed & Hd).
  pose proof (sub_pos_le (power prev) _ md ed Hd H0) as Hsub. fold drained in Hsub.
  subst next. unfold gameTick. fold drained.
  destruct (drained <=? 0)%float eqn:Hle.
  - left. split; reflexivity.
  - destruct (NIGHT_DURATION <=? time prev + 1).
    + right; left. destruct (5 <=? night prev); cbn; auto.
    + right; right.
      destruct (Math_max_above_zero _ _ Hle Hsub) as [Hmax Hpos].
      unfold set_power, set_time. cbn [gameState power]. rewrite Hmax. auto.
Qed.

Lemma gameTick_powerInRange (showCameras : bool) (prev : GameData) :
  powerInRange prev ->
  powerInRange (gameTick showCameras prev)
  /\ (power (gameTick showCameras prev) <=? power prev)%float = true.
Proof.
  intros [H0 H100].
  destruct (gameTick_power_cases showCameras prev H0)
    as [[_ Hp] | [[_ Hp] | (_ & Hp & Hpos & Hle)]]; unfold powerInRange; rewrite Hp.
  - repeat split; auto.
  - repeat split; auto. now apply leb_refl_of_leb with (1 := H0).
  - repeat split; auto. now apply leb_trans with (1 := Hle).
Qed.

Lemma powerInRange_run (rnd : Rng) (evs : list Event) (us : list Update) :
  powerInRange (fst (applyUpdates rnd (run rnd evs initialApp) us)).
Proof.
  assert (Hmove : forall i d, powerInRange d -> powerInRange (moveTick rnd i d)).
  { intros i d Hd. unfold moveTick. now destruct (find _ _). }
  assert (Hdoor : forall s d, powerInRange d -> powerInRange (toggleDoor s d)).
  { intros s d Hd. now destruct s. }
  assert (Hcam : forall c d, powerInRange d -> powerInRange (fst (switchCamera c d))).
  { intros c d Hd. unfold switchCamera. now destruct (c =? 2). }
  assert (Htick : forall c d, powerInRange d -> powerInRange (gameTick c d)).
  { intros c d Hd. now apply gameTick_powerInRange. }
  assert (Hinit : forall n d, powerInRange (initializeNight n d)).
  { intros n d. split; reflexivity. }
  apply applyUpdates_preserves, run_preserves; auto.
  split; reflexivity.
Qed.

(** C2 (amended): on every tick taken in [playing] the drain is exactly
    0.05, plus 0.15 per closed door, plus 0.2 when the camera view is
    open.  It is subtracted from the stored power when the tick leaves the
    phase [playing]; the tick that ends the game stores 0 and the tick
    that ends the night leaves the power as it was.  So a power within
    [0,100] never increases and stays within [0,100], and the power is
    within [0,100] in every state of every run.  A tick with power 100,
    no door closed, no camera open and the night not ending stores 99.95
    and stays in [playing]. *)
Theorem power_drain_per_tick (showCameras : bool) (prev : GameData) :
  gameState prev = playing ->
  (0 <=? power prev)%float = true ->
  (power prev <=? 100)%float = true ->
  let drain := powerDrain showCameras prev in
  let next := gameTick showCameras prev in
  drain = (0.05
           + ((if leftDoorClosed prev then 1 else 0)
              + (if rightDoorClosed prev then 1 else 0)) * 0.15
           + (if showCameras then 0.2 else 0))%float
  /\ (gameState next = playing -> power next = (power prev - drain)%float)
  /\ (gameState next = gameOver -> power next = 0%float)
  /\ (gameState next = menu \/ gameState next = victory -> power next = power prev)
  /\ (power next <=? power prev)%float = true
  /\ (0 <=? power next)%float = true
  /\ (power next <=? 100)%float = true
  /\ (power prev = 100%float -> leftDoorClosed prev = false ->
      rightDoorClosed prev = false -> showCameras = false ->
      time prev + 1 < NIGHT_DURATION ->
      power next = 99.95%float /\ gameState next = playing)
  /\ (forall rnd evs us,
        powerInRange (fst (applyUpdates rnd (run rnd evs initialApp) us))).
Proof.
  intros Hplay H0 H100 drain next.
  destruct (gameTick_powerInRange showCameras prev (conj H0 H100))
    as [[Hn0 Hn100] Hmono].
  fold next in Hn0, Hn100, Hmono.
  assert (Hstate : (gameState next = playing -> power next = (power prev - drain)%float)
                   /\ (gameState next = gameOver -> power next = 0%float)
                   /\ (gameState next = menu \/ gameState next = victory ->
                       power next = power prev)).
  { destruct (gameTick_power_cases showCameras prev H0)
      as [[Hg Hp] | [[Hg Hp] | (Hg & Hp & _)]]; fold next in Hg, Hp.
    - rewrite Hg. repeat split; try discriminate; auto.
      intros [E|E]; discriminate E.
    - repeat split; auto; destruct Hg as [Hg|Hg]; rewrite Hg; discriminate.
    - rewrite Hg, Hplay. repeat split; try discriminate; auto.
      intros [E|E]; discriminate E. }
  destruct Hstate as (Hs1 & Hs2 & Hs3).
  repeat match goal with |- _ /\ _ => split end; auto.
  - subst drain. unfold powerDrain.
    destruct (leftDoorClosed prev), (rightDoorClosed prev), showCameras; reflexivity.
  - intros Hp Hl Hr Hc Ht. subst next drain. unfold gameTick, powerDrain.
    rewrite Hp, Hl, Hr, Hc. apply Z.leb_gt in Ht. rewrite Ht.
    split; [reflexivity | exact Hplay].
  - intros rnd evs us. apply powerInRange_run.
Qed.

Lemma power_drain_per_tick_witness :
  let prev := initializeNight 1 initialGameData in
  let drain := powerDrain false prev in
  let next := gameTick false prev in
  drain = (0.05
           + ((if leftDoorClosed prev then 1 else 0)
              + (if rightDoorClosed prev then 1 else 0)) * 0.15
           + (if false then 0.2 else 0))%float
  /\ (gameState next = playing -> power next = (power prev - drain)%float)
  /\ (gameState next = gameOver -> power next = 0%float)
  /\ (gameState next = menu \/ gameState next = victory -> power next = power prev)
  /\ (power next <=? power prev)%float = true
  /\ (0 <=? power next)%float = true
  /\ (power next <=? 100)%float = true
  /\ (power prev = 100%float -> leftDoorClosed prev = false ->
      rightDoorClosed prev = false -> false = false ->
      time prev + 1 < NIGHT_DURATION ->
      power next = 99.95%float /\ gameState next = playing)
  /\ (forall rnd evs us,
        powerInRange (fst (applyUpdates rnd (run rnd evs initialApp) us))).
Proof.
  exact (power_drain_per_tick false (initializeNight 1 initialGameData)
           eq_refl eq_refl eq_refl).
Defined.

(** * Camera selection *)

Lemma switchCameraTimes_2 (n : nat) (prev : GameData) :
  switchCameraTimes n 2 prev = (prev, repeat "Camera 2 is not working!"%string n).
Proof.
  induction n as [|n IH]; [reflexivity|].
  change (switchCameraTimes (S n) 2 prev)
    with (let (d', notices) := switchCameraTimes n 2 prev in
          (d', "Camera 2 is not working!"%string :: notices)).
  now rewrite IH.
Qed.

Lemma setGameData_same (a : App) : setGameData (gameData a) a = a.
Proof.
  unfold setGameData, phase. rewrite Z.eqb_refl.
  destruct a as [d c s r t n]. cbn [gameData]. now destruct (gameState d).
Qed.

(** C9: selecting camera 2 leaves the whole state, [currentCamera]
    included, as it was and raises the notice; [n] such calls in a row
    leave the state as it was and raise [n] notices; and the commit that
    follows leaves every part of the component as it was. *)
Theorem switchCamera_2_rejected (prev : GameData) :
  switchCamera 2 prev = (prev, Some "Camera 2 is not working!"%string)
  /\ currentCamera (fst (switchCamera 2 prev)) = currentCamera prev
  /\ (forall n : nat,
        switchCameraTimes n 2 prev
        = (prev, repeat "Camera 2 is not working!"%string n))
  /\ (forall rnd a, step rnd (Commit [SwitchCamera 2]) a = a).
Proof.
  split; [reflexivity|]. split; [reflexivity|]. split.
  - intros n. apply switchCameraTimes_2.
  - intros rnd a. cbn [step]. unfold applyUpdates. cbn [filter armed].
    destruct (GameState_eqb (phase a) playing); cbn [fold_left applyUpdate];
      change (fst (switchCamera 2 (gameData a))) with (gameData a);
      destruct a as [d c s r t n]; apply (setGameData_same (mkApp d c s r t n)).
Qed.

(** C10: a notice is raised exactly for index 2; any other index, in
    range or not, in any phase, becomes [currentCamera] and nothing else
    changes. *)
Theorem switchCamera_other_index_accepted (camera : Z) (prev : GameData) :
  (snd (switchCamera camera prev) <> None <-> camera = 2)
  /\ (camera <> 2 ->
      switchCamera camera prev
      = (mkGameData (night prev) (time prev) (power prev) (leftDoorClosed prev)
           (rightDoorClosed prev) camera (animatronics prev) (gameState prev)
           (bossMode prev), None)).
Proof.
  unfold switchCamera. destruct (Z.eqb_spec camera 2) as [->|Hne]; cbn [snd].
  - split; [split; [reflexivity | discriminate] | intros H; now elim H].
  - split; [split; [intros H; now elim H | contradiction] | reflexivity].
Qed.

(** Indices that name no camera, in phases other than [playing]. *)
Example switchCamera_out_of_range :
  currentCamera (fst (switchCamera 0 initialGameData)) = 0
  /\ currentCamera (fst (switchCamera 5 (set_gameState gameOver initialGameData))) = 5
  /\ currentCamera (fst (switchCamera (-3) (set_gameState victory initialGameData))) = -3
  /\ gameState (fst (switchCamera (-3) (set_gameState victory initialGameData))) = victory.
Proof. repeat split. Qed.

(** * The actor movement scheduler *)

Lemma stepAll_length (rnd : Rng) (prev : GameData) (l : list Animatronic) (i : nat) :
  List.length (stepAll rnd prev i l) = List.length l.
Proof.
  revert i. induction l as [|a l IH]; intros i; cbn [stepAll List.length]; [reflexivity|].
  now rewrite IH.
Qed.

(** An element whose callback result does not depend on the random
    cursor is found in the updated array wherever it stands. *)
Lemma stepAll_In_returned (rnd : Rng) (prev : GameData) (a b : Animatronic)
    (l : list Animatronic) (i : nat) :
  In a l ->
  (forall j, returned (stepAnimatronic rnd prev j a) = b) ->
  In b (map returned (stepAll rnd prev i l)).
Proof.
  intros Hin Hb. revert i. induction l as [|x l IH]; intros i; [contradiction|].
  cbn [stepAll map]. destruct Hin as [->|Hin].
  - left. apply Hb.
  - right. now apply IH.
Qed.

(** The callback leaves the object it was given alone, or sets its
    alert flag. *)
Lemma argument_cases (rnd : Rng) (prev : GameData) (i : nat) (a : Animatronic) :
  argument (stepAnimatronic rnd prev i a) = a
  \/ argument (stepAnimatronic rnd prev i a) = set_soundPlayed true a.
Proof.
  unfold stepAnimatronic, moveAnimatronic.
  repeat match goal with
         | |- context [if ?b then _ else _] => destruct b
         | |- context [match location a with _ => _ end] => destruct (location a)
         end; cbn; auto.
Qed.

Lemma visited_Forall2 (rnd : Rng) (prev : GameData) (l : list Animatronic) (i : nat) :
  Forall2 (fun old kept => kept = old \/ kept = set_soundPlayed true old)
          l (map argument (stepAll rnd prev i l)).
Proof.
  revert i. induction l as [|a l IH]; intros i; cbn [stepAll map]; constructor.
  - apply argument_cases.
  - apply IH.
Qed.

Lemma find_existsb {A} (f : A -> bool) (l : list A) :
  existsb f l = match find f l with Some _ => true | None => false end.
Proof.
  induction l as [|x l IH]; cbn; [reflexivity|]. now destruct (f x).
Qed.

(** C3, counterexample: night 1 with the doors left open.  After 349
    ticks Gen and Poppy have stood 79 ticks at the right door.  The next
    scheduler tick computes an updated array with both counters at 80,
    ends the game, and returns the previous array: the counters are
    still 79. *)
Lemma moveTick_gameOver_drops_update :
  stalledAtRightDoor
  = mkGameData 1 349 82.550000000000992%float false false 4
      [ mkAnimatronic Deddy stage false 0 false false (Some 0);
        mkAnimatronic Gen rightDoor true 79 true false (Some 79);
        mkAnimatronic Poppy rightDoor true 79 true false (Some 79) ]
      playing false
  /\ updatedAnimatronics alwaysHigh 2 stalledAtRightDoor
     = [ mkAnimatronic Deddy stage false 0 false false (Some 0);
         mkAnimatronic Gen rightDoor true 79 true false (Some 80);
         mkAnimatronic Poppy rightDoor true 79 true false (Some 80) ]
  /\ moveTick alwaysHigh 2 stalledAtRightDoor
     = mkGameData 1 349 82.550000000000992%float false false 4
         [ mkAnimatronic Deddy stage false 0 false false (Some 0);
           mkAnimatronic Gen rightDoor true 79 true false (Some 79);
           mkAnimatronic Poppy rightDoor true 79 true false (Some 79) ]
         gameOver false
  /\ animatronics (moveTick alwaysHigh 2 stalledAtRightDoor)
     <> updatedAnimatronics alwaysHigh 2 stalledAtRightDoor.
Proof.
  assert (E : stalledAtRightDoor
    = mkGameData 1 349 82.550000000000992%float false false 4
        [ mkAnimatronic Deddy stage false 0 false false (Some 0);
          mkAnimatronic Gen rightDoor true 79 true false (Some 79);
          mkAnimatronic Poppy rightDoor true 79 true false (Some 79) ]
        playing false) by (vm_compute; reflexivity).
  rewrite E. repeat split. discriminate.
Qed.

(** C3 (amended): when an active actor stands at an open door and its
    stall counter reaches 80 on this tick, every actor is recomputed
    first (the updated array has one element per actor and holds the
    stalled actor with its new counter), the phase is decided on that
    complete array and becomes [gameOver]; the returned state is the
    previous snapshot with the phase overridden: its actor array is the
    previous array, the stalled actor with its old counter included, not
    the updated one (at most an alert flag has been set in it). *)
Theorem stall_forces_gameOver (rnd : Rng) (i : nat) (prev : GameData)
    (a : Animatronic) :
  In a (animatronics prev) ->
  isActive a = true ->
  atDoor a = true ->
  isBlockedByDoor a (leftDoorClosed prev) (rightDoorClosed prev) = false ->
  80 <= orZero (doorTimer a) + 1 ->
  let next := moveTick rnd i prev in
  List.length (updatedAnimatronics rnd i prev) = List.length (animatronics prev)
  /\ In (set_doorTimer (Some (orZero (doorTimer a) + 1)) a)
        (updatedAnimatronics rnd i prev)
  /\ gameState next
     = (if existsb tooLongAtDoor (updatedAnimatronics rnd i prev)
        then gameOver else gameState prev)
  /\ next = mkGameData (night prev) (time prev) (power prev)
              (leftDoorClosed prev) (rightDoorClosed prev) (currentCamera prev)
              (visitedAnimatronics rnd i prev) gameOver (bossMode prev)
  /\ Forall2 (fun old kept => kept = old \/ kept = set_soundPlayed true old)
             (animatronics prev) (animatronics next).
Proof.
  intros Hin Hact Hdoor Hopen Hstall next.
  assert (Hret : forall j, returned (stepAnimatronic rnd prev j a)
                           = set_doorTimer (Some (orZero (doorTimer a) + 1)) a).
  { intros j. unfold stepAnimatronic. rewrite Hact, Hdoor. cbn [negb].
    unfold isBlockedByDoor in Hopen. rewrite Hopen.
    apply Z.leb_le in Hstall. now rewrite Hstall. }
  assert (Hupd : In (set_doorTimer (Some (orZero (doorTimer a) + 1)) a)
                    (updatedAnimatronics rnd i prev)).
  { unfold updatedAnimatronics. now apply stepAll_In_returned with (a := a). }
  assert (Hlong : tooLongAtDoor (set_doorTimer (Some (orZero (doorTimer a) + 1)) a) = true).
  { unfold tooLongAtDoor. cbn. rewrite Hdoor. now apply Z.leb_le. }
  assert (Hfind : exists b, find tooLongAtDoor (updatedAnimatronics rnd i prev) = Some b).
  { destruct (find tooLongAtDoor (updatedAnimatronics rnd i prev)) as [b|] eqn:Hf; [eauto|].
    pose proof (find_none _ _ Hf _ Hupd) as Hn. congruence. }
  destruct Hfind as [b Hb].
  assert (Hnext : next = mkGameData (night prev) (time prev) (power prev)
              (leftDoorClosed prev) (rightDoorClosed prev) (currentCamera prev)
              (visitedAnimatronics rnd i prev) gameOver (bossMode prev)).
  { subst next. unfold moveTick. now rewrite Hb. }
  split; [|split; [|split; [|split]]].
  - unfold updatedAnimatronics. now rewrite length_map, stepAll_length.
  - exact Hupd.
  - rewrite find_existsb, Hb, Hnext. reflexivity.
  - exact Hnext.
  - rewrite Hnext. cbn [animatronics]. apply visited_Forall2.
Qed.

Lemma stall_forces_gameOver_witness :
  let next := moveTick alwaysHigh 2 stalledAtRightDoor in
  List.length (updatedAnimatronics alwaysHigh 2 stalledAtRightDoor)
  = List.length (animatronics stalledAtRightDoor)
  /\ In (set_doorTimer (Some (orZero (doorTimer genAtRightDoor) + 1)) genAtRightDoor)
        (updatedAnimatronics alwaysHigh 2 stalledAtRightDoor)
  /\ gameState next
     = (if existsb tooLongAtDoor (updatedAnimatronics alwaysHigh 2 stalledAtRightDoor)
        then gameOver else gameState stalledAtRightDoor)
  /\ next = mkGameData (night stalledAtRightDoor) (time stalledAtRightDoor)
              (power stalledAtRightDoor)
              (leftDoorClosed stalledAtRightDoor) (rightDoorClosed stalledAtRightDoor)
              (currentCamera stalledAtRightDoor)
              (visitedAnimatronics alwaysHigh 2 stalledAtRightDoor) gameOver
              (bossMode stalledAtRightDoor)
  /\ Forall2 (fun old kept => kept = old \/ kept = set_soundPlayed true old)
             (animatronics stalledAtRightDoor) (animatronics next).
Proof.
  apply (stall_forces_gameOver alwaysHigh 2 stalledAtRightDoor genAtRightDoor).
  - vm_compute. auto.
  - reflexivity.
  - reflexivity.
  - vm_compute. reflexivity.
  - vm_compute. discriminate.
Defined.

(** ** Repelled at a closed door *)

Lemma stepTimes_S (rnd : Rng) (prev : GameData) (n i : nat) (a : Animatronic) :
  stepTimes rnd prev (S n) i a
  = stepTimes rnd prev n (draws (stepAnimatronic rnd prev i a))
               (returned (stepAnimatronic rnd prev i a)).
Proof. reflexivity. Qed.

(** An actor flagged at a door whose door is closed is repelled at once. *)
Lemma repelled_at_closed_door (rnd : Rng) (prev : GameData) (i : nat) (a : Animatronic) :
  isActive a = true -> atDoor a = true ->
  isBlockedByDoor a (leftDoorClosed prev) (rightDoorClosed prev) = true ->
  stepAnimatronic rnd prev i a = mkStep a (backToStage a) false i.
Proof.
  intros Hact Hdoor Hbl. unfold stepAnimatronic. rewrite Hact, Hdoor. cbn [negb].
  unfold isBlockedByDoor in Hbl. now rewrite Hbl.
Qed.

(** ** Dwell thresholds and the location graph *)




(** ** Invariants of the actor array *)

Lemma stepAll_Forall (P : Animatronic -> Prop) (rnd : Rng) (prev : GameData) :
  (forall i a, P a ->
     P (returned (stepAnimatronic rnd prev i a))
     /\ P (argument (stepAnimatronic rnd prev i a))) ->
  forall l i, Forall P l ->
    Forall P (map returned (stepAll rnd prev i l))
    /\ Forall P (map argument (stepAll rnd prev i l)).
Proof.
  intros Hstep l. induction l as [|a l IH]; intros i Hl; cbn [stepAll map].
  - split; constructor.
  - inversion Hl as [|? ? Ha Hl']; subst.
    destruct (Hstep i a Ha) as [Hr Hg].
    destruct (IH (draws (stepAnimatronic rnd prev i a)) Hl') as [IHr IHg].
    split; constructor; assumption.
Qed.

Lemma moveTick_Forall (P : Animatronic -> Prop) (rnd : Rng) (i : nat) (prev : GameData) :
  (forall j a, P a ->
     P (returned (stepAnimatronic rnd prev j a))
     /\ P (argument (stepAnimatronic rnd prev j a))) ->
  Forall P (animatronics prev) ->
  Forall P (animatronics (moveTick rnd i prev)).
Proof.
  intros Hstep Hl.
  destruct (stepAll_Forall P rnd prev Hstep (animatronics prev) i Hl) as [Hr Hg].
  unfold moveTick, updatedAnimatronics, visitedAnimatronics.
  destruct (find _ _); cbn [animatronics set_gameState set_animatronics]; assumption.
Qed.

Ltac step_cases a :=
  destruct a as [n l act mt ad sp dt];
  unfold stepAnimatronic, moveAnimatronic, backToStage, runToDoor, set_timers,
    set_doorTimer, set_soundPlayed;
  cbn [name location isActive moveTimer atDoor soundPlayed doorTimer];
  repeat match goal with
         | |- context [if ?b then _ else _] => destruct b eqn:?
         | |- context [match ?x with stage => _ | _ => _ end] => destruct x eqn:?
         end;
  cbn [name location isActive moveTimer atDoor soundPlayed doorTimer
       returned argument played draws isDoor] in *.

Lemma step_doorInvariant (rnd : Rng) (prev : GameData) (i : nat) (a : Animatronic) :
  atDoor a = isDoor (location a) ->
  atDoor (returned (stepAnimatronic rnd prev i a))
  = isDoor (location (returned (stepAnimatronic rnd prev i a)))
  /\ atDoor (argument (stepAnimatronic rnd prev i a))
     = isDoor (location (argument (stepAnimatronic rnd prev i a))).
Proof.
  intros H. step_cases a; subst; auto.
Qed.

Lemma nightAnimatronics_fresh (n : Z) :
  Forall (fun a => location a = stage /\ atDoor a = false /\ soundPlayed a = false)
         (nightAnimatronics n).
Proof.
  unfold nightAnimatronics. destruct (n =? 5); repeat constructor.
Qed.


Lemma gameTick_animatronics (c : bool) (d : GameData) :
  animatronics (gameTick c d) = animatronics d.
Proof.
  unfold gameTick.
  repeat match goal with |- context [if ?b then _ else _] => destruct b end;
    reflexivity.
Qed.

Lemma toggleDoor_animatronics (s : Side) (d : GameData) :
  animatronics (toggleDoor s d) = animatronics d.
Proof. now destruct s. Qed.

Lemma switchCamera_animatronics (c : Z) (d : GameData) :
  animatronics (fst (switchCamera c d)) = animatronics d.
Proof. unfold switchCamera. now destruct (c =? 2). Qed.

Lemma doorInvariant_initializeNight (n : Z) (d : GameData) :
  doorInvariant (initializeNight n d).
Proof.
  unfold doorInvariant. cbn [initializeNight animatronics].
  eapply Forall_impl; [|apply nightAnimatronics_fresh].
  intros a (Hl & Hd & _). now rewrite Hl, Hd.
Qed.

Lemma doorInvariant_moveTick (rnd : Rng) (i : nat) (d : GameData) :
  doorInvariant d -> doorInvariant (moveTick rnd i d).
Proof.
  unfold doorInvariant. apply moveTick_Forall.
  intros j a. apply step_doorInvariant.
Qed.

Lemma doorInvariant_gameTick (c : bool) (d : GameData) :
  doorInvariant d -> doorInvariant (gameTick c d).
Proof. unfold doorInvariant. now rewrite gameTick_animatronics. Qed.

Lemma doorInvariant_toggleDoor (s : Side) (d : GameData) :
  doorInvariant d -> doorInvariant (toggleDoor s d).
Proof. unfold doorInvariant. now rewrite toggleDoor_animatronics. Qed.

Lemma doorInvariant_switchCamera (c : Z) (d : GameData) :
  doorInvariant d -> doorInvariant (fst (switchCamera c d)).
Proof. unfold doorInvariant. now rewrite switchCamera_animatronics. Qed.

Lemma doorInvariant_run (rnd : Rng) (evs : list Event) (us : list Update) :
  doorInvariant (fst (applyUpdates rnd (run rnd evs initialApp) us)).
Proof.
  apply applyUpdates_preserves, run_preserves;
    auto using doorInvariant_initializeNight, doorInvariant_moveTick,
      doorInvariant_gameTick, doorInvariant_toggleDoor, doorInvariant_switchCamera.
  repeat constructor.
Qed.

(** C6: the at-door flag of every actor is true exactly when its
    location is the left or the right door: in the initial state, after
    night initialisation, and after every transition (ticker tick,
    scheduler tick with its repel, reset, move and boss-jump branches,
    door toggle, camera selection, restart) from a state where it
    holds; hence in every state of every run, committed or between two
    updaters of a commit. *)
Theorem atDoor_iff_door_location :
  doorInvariant initialGameData
  /\ (forall n d, doorInvariant (initializeNight n d))
  /\ (forall c d, doorInvariant d -> doorInvariant (gameTick c d))
  /\ (forall rnd i d, doorInvariant d -> doorInvariant (moveTick rnd i d))
  /\ (forall s d, doorInvariant d -> doorInvariant (toggleDoor s d))
  /\ (forall c d, doorInvariant d -> doorInvariant (fst (switchCamera c d)))
  /\ (forall d, doorInvariant d -> doorInvariant (restartGame d))
  /\ (forall rnd evs us a,
        In a (animatronics (fst (applyUpdates rnd (run rnd evs initialApp) us))) ->
        (atDoor a = true <-> location a = leftDoor \/ location a = rightDoor)).
Proof.
  repeat match goal with |- _ /\ _ => split end;
    auto using doorInvariant_initializeNight, doorInvariant_moveTick,
      doorInvariant_gameTick, doorInvariant_toggleDoor, doorInvariant_switchCamera.
  - repeat constructor.
  - intros rnd evs us a Hin.
    pose proof (doorInvariant_run rnd evs us) as Hinv.
    unfold doorInvariant in Hinv. rewrite Forall_forall in Hinv.
    specialize (Hinv a Hin). split.
    + intros Hat. rewrite Hat in Hinv.
      destruct (location a); try discriminate Hinv; auto.
    + intros [Hl | Hl]; rewrite Hinv, Hl; reflexivity.
Qed.

(** ** Against a closed door *)






(** ** The one-shot alert *)










(** Night 4: Deddy leaves the stage on its 80th tick and the alert is
    raised once, for Deddy only. *)
Example deddy_departure_raises_alert :
  let prev := mkGameData 4 79 90%float false false 4
    [ mkAnimatronic Deddy stage true 79 false false (Some 0);
      mkAnimatronic Gen cam3 true 10 false false (Some 0);
      mkAnimatronic Poppy stage false 0 false false (Some 0) ] playing false in
  moveTickSounds alwaysHigh 0 prev = [true; false; false]
  /\ animatronics (moveTick alwaysHigh 0 prev)
     = [ mkAnimatronic Deddy cam3 true 0 false true (Some 0);
         mkAnimatronic Gen cam3 true 11 false false (Some 0);
         mkAnimatronic Poppy stage false 0 false false (Some 0) ]
  /\ moveTickDraws alwaysHigh 0 prev = 0%nat.
Proof. repeat split. Qed.

(** The same departure on a tick that ends the game: the state keeps the
    previous array, in which Deddy, still on the stage, now has its alert
    flag set. *)
Example alert_flag_set_in_place :
  let prev := mkGameData 4 79 90%float false false 4
    [ mkAnimatronic Deddy stage true 79 false false (Some 0);
      mkAnimatronic Gen leftDoor true 0 true false (Some 79);
      mkAnimatronic Poppy stage false 0 false false (Some 0) ] playing false in
  moveTickSounds alwaysHigh 0 prev = [true; false; false]
  /\ moveTick alwaysHigh 0 prev
     = mkGameData 4 79 90%float false false 4
         [ mkAnimatronic Deddy stage true 79 false true (Some 0);
           mkAnimatronic Gen leftDoor true 0 true false (Some 79);
           mkAnimatronic Poppy stage false 0 false false (Some 0) ] gameOver false.
Proof. repeat split. Qed.

(** * The auto-advance effect *)

Lemma GameState_eqb_eq (g h : GameState) : GameState_eqb g h = true <-> g = h.
Proof. destruct g, h; cbn; split; congruence. Qed.

(** Whatever state is committed, the effect keeps its invariant.  The
    pending timeout of the component committed to does not matter when
    the phase changes: the cleanup clears it. *)
Lemma setGameData_autoAdvanceInvariant (d : GameData) (a a0 : App)
    (from : option GameState) :
  autoAdvanceInvariant a from ->
  gameData a0 = gameData a ->
  prevGameStateRef a0 = prevGameStateRef a ->
  autoAdvance a0 = autoAdvance a \/ gameState d <> phase a ->
  autoAdvanceInvariant (setGameData d a0)
    (if GameState_eqb (phase a) (phase (setGameData d a0))
     then from else Some (phase a)).
Proof.
  intros [Hpend Href] Hd0 Hr0 Hp0.
  destruct a0 as [d0 sc0 se0 ref0 pend0 rc0].
  cbn [gameData prevGameStateRef autoAdvance] in Hd0, Hr0, Hp0. subst d0 ref0.
  unfold autoAdvanceInvariant, setGameData, autoAdvanceEffect, phase in *.
  cbn [gameData prevGameStateRef autoAdvance showCameras soundEnabled randomCalls].
  rewrite Href. clear Href.
  destruct (gameState (gameData a)) eqn:Hpa, (gameState d) eqn:Hpd;
    cbn [GameState_eqb andb] in Hpend |- *;
    try (destruct (Z.eqb_spec (night (gameData a)) (night d)) as [Hn|Hn]);
    destruct (enteredFromPlaying from) eqn:Hfrom;
    cbn [gameData prevGameStateRef autoAdvance showCameras soundEnabled
         randomCalls GameState_eqb andb enteredFromPlaying];
    rewrite ?Hpd; cbn [GameState_eqb andb enteredFromPlaying]; rewrite ?Hfrom;
    try (split; reflexivity);
    (destruct Hp0 as [->|Hp0]; [|congruence]);
    rewrite Hpend, ?Hn; split; reflexivity.
Qed.

Lemma step_autoAdvanceInvariant (rnd : Rng) (e : Event) (a : App)
    (from : option GameState) :
  autoAdvanceInvariant a from ->
  autoAdvanceInvariant (step rnd e a)
    (if GameState_eqb (phase a) (phase (step rnd e a)) then from else Some (phase a)).
Proof.
  intros Hinv.
  assert (Hrefl : GameState_eqb (phase a) (phase a) = true) by now apply GameState_eqb_eq.
  destruct e; cbn [step].
  - destruct (applyUpdates rnd a updates) as [d i].
    apply setGameData_autoAdvanceInvariant; auto.
  - destruct (GameState_eqb (phase a) playing); unfold phase in *; cbn [gameData];
      rewrite Hrefl; exact Hinv.
  - destruct (GameState_eqb (phase a) playing); unfold phase in *; cbn [gameData];
      rewrite Hrefl; exact Hinv.
  - destruct (autoAdvance a) as [t|] eqn:Ht.
    + apply setGameData_autoAdvanceInvariant; auto.
      right. cbn. destruct Hinv as [Hpend _]. rewrite Ht in Hpend.
      destruct (phase a); cbn in Hpend; discriminate || congruence.
    + rewrite Hrefl. exact Hinv.
Qed.

Lemma run_autoAdvanceInvariant (rnd : Rng) (evs : list Event) :
  forall a from,
    autoAdvanceInvariant a from ->
    autoAdvanceInvariant (run rnd evs a) (precedingPhase rnd evs a from).
Proof.
  induction evs as [|e evs IH]; intros a from Ha; [exact Ha|].
  cbn [run fold_left precedingPhase]. apply IH.
  now apply step_autoAdvanceInvariant.
Qed.

Lemma initialApp_autoAdvanceInvariant : autoAdvanceInvariant initialApp None.
Proof. split; reflexivity. Qed.


(** A cleared first night: the menu entered from [playing] has the
    timeout pending, and it brings up night 2; pressing start first
    cancels it. *)
Example cleared_night_auto_advances :
  let cleared :=
    mkApp (set_time 359 (initializeNight 1 initialGameData)) false true playing None 0 in
  let a := step alwaysHigh (Commit [GameTimer; MoveTimer]) cleared in
  phase a = menu
  /\ autoAdvance a = Some (mkTimeout 2000 2)
  /\ phase (step alwaysHigh AutoAdvance a) = playing
  /\ night (gameData (step alwaysHigh AutoAdvance a)) = 2
  /\ autoAdvance (step alwaysHigh (Commit [StartGame]) a) = None.
Proof. repeat split. Qed.

(** * Further properties of the code *)

(** ** Night initialisation and the door buttons *)

Lemma initializeNight_table (n : Z) (prev : GameData) :
  map (fun a => (name a, isActive a)) (animatronics (initializeNight n prev))
  = activation n
  /\ Forall (fun a => a = freshAnimatronic (name a) (isActive a))
            (animatronics (initializeNight n prev))
  /\ bossMode (initializeNight n prev) = (n =? 5).
Proof.
  unfold initializeNight, nightAnimatronics, activation.
  cbn [animatronics bossMode].
  destruct (Z.eqb_spec n 5) as [->|Hn].
  - repeat split; repeat constructor.
  - cbn [map freshAnimatronic name isActive negb]. rewrite !andb_true_r.
    repeat split; repeat constructor.
Qed.

(** X1: for every night index, [initializeNight] sets up the three
    actors, in the order Deddy, Gen, Poppy, all untouched on the stage;
    Deddy is active exactly from index 4 on, Gen and Poppy exactly from
    index 1 on except on night 5; and boss mode is on exactly on
    night 5. *)
Theorem initializeNight_activation (n : Z) (prev : GameData) :
  map (fun a => (name a, isActive a)) (animatronics (initializeNight n prev))
  = activation n
  /\ Forall (fun a => a = freshAnimatronic (name a) (isActive a))
            (animatronics (initializeNight n prev))
  /\ bossMode (initializeNight n prev) = (n =? 5).
Proof. apply initializeNight_table. Qed.

(** X2: pressing the same door button twice restores the state; the
    two door buttons commute; and a press of either button negates the
    closed flag of its own door and changes nothing else. *)
Theorem toggleDoor_involutive (s s' : Side) (d : GameData) :
  toggleDoor s (toggleDoor s d) = d
  /\ toggleDoor s (toggleDoor s' d) = toggleDoor s' (toggleDoor s d)
  /\ toggleDoor left d
     = mkGameData (night d) (time d) (power d)
         (negb (leftDoorClosed d)) (rightDoorClosed d)
         (currentCamera d) (animatronics d) (gameState d) (bossMode d)
  /\ toggleDoor right d
     = mkGameData (night d) (time d) (power d)
         (leftDoorClosed d) (negb (rightDoorClosed d))
         (currentCamera d) (animatronics d) (gameState d) (bossMode d)
  /\ leftDoorClosed (toggleDoor left d) <> leftDoorClosed d
  /\ rightDoorClosed (toggleDoor right d) <> rightDoorClosed d
  /\ rightDoorClosed (toggleDoor left d) = rightDoorClosed d
  /\ leftDoorClosed (toggleDoor right d) = leftDoorClosed d.
Proof.
  destruct d as [n t p l r c an g b].
  repeat split; destruct s, s'; cbn; rewrite ?negb_involutive;
    try reflexivity; first [now destruct l | now destruct r].
Qed.

(** ** When the scheduler ends the game *)

Lemma tooLong_returned (rnd : Rng) (prev : GameData) (i : nat) (a : Animatronic) :
  tooLongAtDoor (returned (stepAnimatronic rnd prev i a)) = breaches prev a.
Proof.
  destruct a as [n l act mt ad sp dt].
  unfold stepAnimatronic, breaches, tooLongAtDoor, isBlockedByDoor, moveAnimatronic.
  cbn [name location isActive moveTimer atDoor soundPlayed doorTimer].
  destruct act; cbn [negb returned]; [|reflexivity].
  destruct ad; cbn [andb].
  - destruct (_ || _); cbn [negb andb returned atDoor backToStage]; [reflexivity|].
    destruct (80 <=? orZero dt + 1) eqn:E;
      cbn [returned set_doorTimer set_timers atDoor doorTimer orZero andb
           name location isActive moveTimer soundPlayed];
      exact E.
  - repeat match goal with
           | |- context [if ?b then _ else _] => destruct b
           | |- context [match l with _ => _ end] => destruct l
           end; reflexivity.
Qed.

Lemma existsb_tooLong (rnd : Rng) (prev : GameData) (l : list Animatronic) (i : nat) :
  existsb tooLongAtDoor (map returned (stepAll rnd prev i l))
  = existsb (breaches prev) l.
Proof.
  revert i. induction l as [|a l IH]; intros i; [reflexivity|].
  cbn [stepAll map existsb]. now rewrite tooLong_returned, IH.
Qed.

Lemma moveTick_gameState (rnd : Rng) (i : nat) (prev : GameData) :
  gameState (moveTick rnd i prev)
  = if existsb (breaches prev) (animatronics prev) then gameOver else gameState prev.
Proof.
  rewrite <- (existsb_tooLong rnd prev (animatronics prev) i), find_existsb.
  unfold moveTick, updatedAnimatronics.
  now destruct (find _ _).
Qed.

(** X3: a scheduler tick ends the game exactly when the array it is
    given holds an actor flagged at a door that is either inactive with
    a stall counter of 80 or more, or active at an open door with a
    stall counter of 79 or more; otherwise it leaves the phase alone.
    The random draws have no part in it. *)
Theorem moveTick_ends_game_iff_breach (rnd : Rng) (i : nat) (prev : GameData) :
  (gameState (moveTick rnd i prev) = gameOver
   <-> gameState prev = gameOver
       \/ exists a, In a (animatronics prev) /\ atDoor a = true
            /\ (isActive a = false /\ 80 <= orZero (doorTimer a)
                \/ isActive a = true
                   /\ isBlockedByDoor a (leftDoorClosed prev) (rightDoorClosed prev)
                      = false
                   /\ 79 <= orZero (doorTimer a)))
  /\ (gameState (moveTick rnd i prev) <> gameOver ->
      gameState (moveTick rnd i prev) = gameState prev)
  /\ forall rnd' i', gameState (moveTick rnd' i' prev) = gameState (moveTick rnd i prev).
Proof.
  assert (Hb : existsb (breaches prev) (animatronics prev) = true
               <-> exists a, In a (animatronics prev) /\ atDoor a = true
                    /\ (isActive a = false /\ 80 <= orZero (doorTimer a)
                        \/ isActive a = true
                           /\ isBlockedByDoor a (leftDoorClosed prev)
                                (rightDoorClosed prev) = false
                           /\ 79 <= orZero (doorTimer a))).
  { rewrite existsb_exists. split; intros (a & Hin & H); exists a; (split; [exact Hin|]).
    - unfold breaches in H. apply andb_true_iff in H. destruct H as [Had H].
      split; [exact Had|]. destruct (isActive a).
      + right. apply andb_true_iff in H. destruct H as [Hbl Ht].
        apply negb_true_iff in Hbl. apply Z.leb_le in Ht. repeat split; [exact Hbl | lia].
      + left. apply Z.leb_le in H. now split.
    - destruct H as [Had H]. unfold breaches. rewrite Had. cbn [andb].
      destruct H as [[-> Ht]|(-> & Hbl & Ht)].
      + now apply Z.leb_le.
      + rewrite Hbl. cbn [negb andb]. apply Z.leb_le. lia. }
  split; [|split].
  - rewrite moveTick_gameState, <- Hb.
    destruct (existsb _ _); split; intros H; auto.
    destruct H as [H|H]; [exact H | discriminate H].
  - rewrite moveTick_gameState. destruct (existsb _ _); congruence.
  - intros rnd' i'. now rewrite !moveTick_gameState.
Qed.

(** ** What a scheduler tick leaves alone *)

Lemma stepAll_Forall2_both (Q : Animatronic -> Animatronic -> Prop)
    (rnd : Rng) (prev : GameData) :
  (forall j a, Q a (returned (stepAnimatronic rnd prev j a))
               /\ Q a (argument (stepAnimatronic rnd prev j a))) ->
  forall l i, Forall2 Q l (map returned (stepAll rnd prev i l))
              /\ Forall2 Q l (map argument (stepAll rnd prev i l)).
Proof.
  intros Hstep l. induction l as [|a l IH]; intros i; cbn [stepAll map].
  - split; constructor.
  - destruct (Hstep i a) as [Hr Hg].
    destruct (IH (draws (stepAnimatronic rnd prev i a))) as [IHr IHg].
    split; constructor; assumption.
Qed.

Lemma moveTick_Forall2 (Q : Animatronic -> Animatronic -> Prop)
    (rnd : Rng) (i : nat) (prev : GameData) :
  (forall j a, Q a (returned (stepAnimatronic rnd prev j a))
               /\ Q a (argument (stepAnimatronic rnd prev j a))) ->
  Forall2 Q (animatronics prev) (animatronics (moveTick rnd i prev)).
Proof.
  intros Hstep.
  destruct (stepAll_Forall2_both Q rnd prev Hstep (animatronics prev) i) as [Hr Hg].
  unfold moveTick, updatedAnimatronics, visitedAnimatronics.
  destruct (find _ _); cbn [animatronics set_gameState set_animatronics]; assumption.
Qed.

Lemma step_keeps_identity (rnd : Rng) (prev : GameData) (i : nat) (a : Animatronic) :
  let Q (old new : Animatronic) :=
    name new = name old /\ isActive new = isActive old
    /\ (isActive old = false -> new = old) in
  Q a (returned (stepAnimatronic rnd prev i a))
  /\ Q a (argument (stepAnimatronic rnd prev i a)).
Proof.
  cbv zeta. step_cases a; repeat split; intros; try reflexivity;
    destruct act; discriminate.
Qed.

(** X4: a scheduler tick changes nothing but the actor array and the
    phase; it keeps the actors in their order, each with its name and
    its active flag, and hands an inactive actor on exactly as it
    was. *)
Theorem moveTick_frame (rnd : Rng) (i : nat) (prev : GameData) :
  let next := moveTick rnd i prev in
  set_gameState (gameState prev) (set_animatronics (animatronics prev) next) = prev
  /\ Forall2 (fun old new =>
                name new = name old /\ isActive new = isActive old
                /\ (isActive old = false -> new = old))
             (animatronics prev) (animatronics next).
Proof.
  split.
  - unfold moveTick. destruct prev as [n t p l r c an g b].
    destruct (find _ _); reflexivity.
  - apply moveTick_Forall2. intros j a. apply step_keeps_identity.
Qed.

(** ** The two timers in one commit *)

Lemma stepAnimatronic_ext (rnd : Rng) (p q : GameData) (i : nat) (a : Animatronic) :
  leftDoorClosed p = leftDoorClosed q ->
  rightDoorClosed p = rightDoorClosed q ->
  bossMode p = bossMode q ->
  stepAnimatronic rnd p i a = stepAnimatronic rnd q i a.
Proof. intros Hl Hr Hb. unfold stepAnimatronic. now rewrite Hl, Hr, Hb. Qed.

Lemma stepAll_ext (rnd : Rng) (p q : GameData) (l : list Animatronic) (i : nat) :
  leftDoorClosed p = leftDoorClosed q ->
  rightDoorClosed p = rightDoorClosed q ->
  bossMode p = bossMode q ->
  stepAll rnd p i l = stepAll rnd q i l.
Proof.
  intros Hl Hr Hb. revert i. induction l as [|a l IH]; intros i; [reflexivity|].
  cbn [stepAll]. now rewrite (stepAnimatronic_ext rnd p q i a Hl Hr Hb), IH.
Qed.

Lemma gameTick_doors (c : bool) (d : GameData) :
  leftDoorClosed (gameTick c d) = leftDoorClosed d
  /\ rightDoorClosed (gameTick c d) = rightDoorClosed d
  /\ bossMode (gameTick c d) = bossMode d.
Proof.
  unfold gameTick.
  repeat match goal with |- context [if ?b then _ else _] => destruct b end;
    repeat split.
Qed.

Lemma stepAll_gameTick (rnd : Rng) (c : bool) (i : nat) (prev : GameData) :
  stepAll rnd (gameTick c prev) i (animatronics (gameTick c prev))
  = stepAll rnd prev i (animatronics prev).
Proof.
  destruct (gameTick_doors c prev) as (Hl & Hr & Hb).
  rewrite gameTick_animatronics. now apply stepAll_ext.
Qed.

(** X5: when the clock/power ticker and the scheduler both run in one
    commit, the order in which they run does not matter for the clock,
    the power level, the actors or the random draws consumed.  It
    matters for the phase in one case only: the scheduler ends the game
    on the tick on which the night ends with power left.  Then ticker
    first gives [gameOver], and scheduler first gives [menu] (or
    [victory] from night 5 on). *)
Theorem ticks_commute_up_to_phase (rnd : Rng) (i : nat) (c : bool) (prev : GameData) :
  let tickerFirst := moveTick rnd i (gameTick c prev) in
  let schedulerFirst := gameTick c (moveTick rnd i prev) in
  (forall g, set_gameState g tickerFirst = set_gameState g schedulerFirst)
  /\ moveTickDraws rnd i (gameTick c prev) = moveTickDraws rnd i prev
  /\ (tickerFirst = schedulerFirst
      \/ existsb (breaches prev) (animatronics prev) = true
         /\ NIGHT_DURATION <= time prev + 1
         /\ (power prev - powerDrain c prev <=? 0)%float = false
         /\ gameState tickerFirst = gameOver
         /\ gameState schedulerFirst = if 5 <=? night prev then victory else menu).
Proof.
  cbv zeta.
  pose proof (existsb_tooLong rnd prev (animatronics prev) i) as Hex.
  rewrite find_existsb in Hex.
  unfold moveTickDraws, moveTick, updatedAnimatronics, visitedAnimatronics in *.
  rewrite stepAll_gameTick.
  set (S := stepAll rnd prev i (animatronics prev)) in *.
  destruct (find tooLongAtDoor (map returned S)) as [x|];
    rewrite <- Hex; clear Hex;
    destruct prev as [n t p l r cam an g b];
    unfold gameTick, powerDrain;
    cbn [night time power leftDoorClosed rightDoorClosed currentCamera animatronics
         gameState bossMode set_gameState set_animatronics set_power set_time];
    fold (powerDrain c (mkGameData n t p l r cam an g b));
    cbn [leftDoorClosed rightDoorClosed];
    destruct (p - _ <=? 0)%float;
      [| destruct (Z.leb_spec NIGHT_DURATION (t + 1)); [destruct (5 <=? n)|] | |
         destruct (Z.leb_spec NIGHT_DURATION (t + 1)); [destruct (5 <=? n)|] ];
    (split; [reflexivity|]); (split; [reflexivity|]);
    first [ left; reflexivity | right; repeat split; assumption ].
Qed.

(** ** The camera feed *)

Lemma CameraLocation_eqb_eq (l m : CameraLocation) :
  CameraLocation_eqb l m = true <-> l = m.
Proof. destruct l, m; cbn; split; congruence. Qed.

Lemma find_first {A} (f : A -> bool) (l : list A) (a : A) :
  find f l = Some a ->
  exists l1 l2, l = l1 ++ a :: l2 /\ f a = true /\ forall b, In b l1 -> f b = false.
Proof.
  induction l as [|x l IH]; cbn [find]; [discriminate|].
  destruct (f x) eqn:Hx.
  - intros [= ->]. exists [], l. repeat split; [exact Hx | contradiction].
  - intros H. destruct (IH H) as (l1 & l2 & -> & Ha & Hl1).
    exists (x :: l1), l2. repeat split; [exact Ha|].
    intros b [->|Hb]; auto.
Qed.

Lemma switchCamera_currentCamera_not_2 (c : Z) (d : GameData) :
  currentCamera d <> 2 -> currentCamera (fst (switchCamera c d)) <> 2.
Proof.
  unfold switchCamera. destruct (Z.eqb_spec c 2); cbn [fst currentCamera set_currentCamera];
    auto.
Qed.

Lemma gameTick_currentCamera (c : bool) (d : GameData) :
  currentCamera (gameTick c d) = currentCamera d.
Proof.
  unfold gameTick.
  repeat match goal with |- context [if ?b then _ else _] => destruct b end;
    reflexivity.
Qed.

Lemma moveTick_currentCamera (rnd : Rng) (i : nat) (d : GameData) :
  currentCamera (moveTick rnd i d) = currentCamera d.
Proof. unfold moveTick. now destruct (find _ _). Qed.

Lemma currentCamera_not_2_run (rnd : Rng) (evs : list Event) (us : list Update) :
  currentCamera (fst (applyUpdates rnd (run rnd evs initialApp) us)) <> 2.
Proof.
  apply (applyUpdates_preserves (fun d => currentCamera d <> 2)),
        (run_preserves (fun d => currentCamera d <> 2));
    intros;
    rewrite ?gameTick_currentCamera, ?moveTick_currentCamera;
    first [ assumption
          | now apply switchCamera_currentCamera_not_2
          | match goal with s : Side |- _ => now destruct s end
          | cbn; lia ].
Qed.

(** X6: the feed is blank exactly when the selected camera is none of
    1, 3 and 4.  Selecting an index other than 1, 2, 3, 4 is accepted
    and blanks the feed; selecting camera 2 leaves the feed as it was;
    and along every run the selected camera is never 2. *)
Theorem camera_feed_blank (d : GameData) (camera : Z) :
  (getCameraView d = NoView
   <-> currentCamera d <> 1 /\ currentCamera d <> 3 /\ currentCamera d <> 4)
  /\ (camera <> 1 /\ camera <> 2 /\ camera <> 3 /\ camera <> 4 ->
      getCameraView (fst (switchCamera camera d)) = NoView)
  /\ getCameraView (fst (switchCamera 2 d)) = getCameraView d
  /\ (forall rnd evs us,
        currentCamera (fst (applyUpdates rnd (run rnd evs initialApp) us)) <> 2).
Proof.
  assert (Hblank : forall d',
    getCameraView d' = NoView
    <-> currentCamera d' <> 1 /\ currentCamera d' <> 3 /\ currentCamera d' <> 4).
  { intros d'. unfold getCameraView.
    destruct (Z.eqb_spec (currentCamera d') 1), (Z.eqb_spec (currentCamera d') 3),
      (Z.eqb_spec (currentCamera d') 4); split; intros H;
      try discriminate H; try reflexivity; try lia. }
  split; [apply Hblank|]. split; [|split].
  - intros (H1 & H2 & H3 & H4). apply Hblank. unfold switchCamera.
    destruct (Z.eqb_spec camera 2); [contradiction|].
    cbn [fst currentCamera set_currentCamera]. auto.
  - reflexivity.
  - intros rnd evs us. apply currentCamera_not_2_run.
Qed.

(** X7: on camera 1 (and likewise camera 3) the feed names the first
    actor of the array that is located there, and no other, however many
    are there; it reads empty exactly when no actor is there.  On
    camera 4 the feed lists, in array order, every actor located on the
    stage, active or not. *)
Theorem camera_feed_occupants (d : GameData) :
  let reports (l : CameraLocation) (here : option AnimatronicType) :=
    match here with
    | Some n =>
        exists l1 a l2, animatronics d = l1 ++ a :: l2
          /\ name a = n /\ location a = l
          /\ forall b, In b l1 -> location b <> l
    | None => forall a, In a (animatronics d) -> location a <> l
    end in
  (currentCamera d = 1 ->
     exists here, getCameraView d = Cam1View here /\ reports cam1 here)
  /\ (currentCamera d = 3 ->
        exists here, getCameraView d = Cam3View here /\ reports cam3 here)
  /\ (currentCamera d = 4 ->
        exists names, getCameraView d = StageView names
          /\ names = map name (filter (isAt stage) (animatronics d))
          /\ forall n, In n names
               <-> exists a, In a (animatronics d) /\ name a = n /\ location a = stage).
Proof.
  intros reports.
  assert (Hfind : forall l,
    reports l (option_map name (find (isAt l) (animatronics d)))).
  { intros l. unfold reports. destruct (find _ _) as [a|] eqn:Hf; cbn [option_map].
    - destruct (find_first _ _ _ Hf) as (l1 & l2 & Heq & Ha & Hl1).
      exists l1, a, l2. repeat split; [exact Heq | now apply CameraLocation_eqb_eq |].
      intros b Hb Hloc. specialize (Hl1 b Hb). unfold isAt in Hl1.
      apply CameraLocation_eqb_eq in Hloc. congruence.
    - intros a Hin Hloc. pose proof (find_none _ _ Hf a Hin) as Hn.
      unfold isAt in Hn. apply CameraLocation_eqb_eq in Hloc. congruence. }
  unfold getCameraView. repeat split.
  - intros ->. cbn [Z.eqb Pos.eqb]. eexists. split; [reflexivity | apply Hfind].
  - intros ->. cbn [Z.eqb Pos.eqb]. eexists. split; [reflexivity | apply Hfind].
  - intros ->. cbn [Z.eqb Pos.eqb]. eexists. split; [reflexivity|].
    split; [reflexivity|]. intros n. rewrite in_map_iff.
    split; intros (a & H1 & H2); exists a.
    + apply filter_In in H2. destruct H2 as [Hin Hat].
      apply CameraLocation_eqb_eq in Hat. auto.
    + destruct H2 as [Hn Hloc]. split; [exact Hn|].
      apply filter_In. split; [exact H1 | now apply CameraLocation_eqb_eq].
Qed.

(** Near the end of a quiet first night Gen and Poppy stand in the
    side hall together, Deddy inactive on the stage: camera 3 names Gen
    only, and camera 4 lists Deddy. *)
Example side_hall_feed_names_one_of_two :
  map location (animatronics lastMinute) = [stage; cam3; cam3]
  /\ getCameraView (fst (switchCamera 3 lastMinute)) = Cam3View (Some Gen)
  /\ getCameraView lastMinute = StageView [Deddy].
Proof. vm_compute. repeat split. Qed.

(** ** The clock *)

Lemma timeInRange_gameTick (c : bool) (d : GameData) :
  timeInRange d -> timeInRange (gameTick c d).
Proof.
  unfold timeInRange, gameTick. intros H.
  destruct (_ <=? 0)%float; [exact H|].
  destruct (Z.leb_spec NIGHT_DURATION (time d + 1)).
  - destruct (5 <=? night d); exact H.
  - cbn [time set_power set_time]. lia.
Qed.

Lemma timeInRange_run (rnd : Rng) (evs : list Event) (us : list Update) :
  timeInRange (fst (applyUpdates rnd (run rnd evs initialApp) us)).
Proof.
  apply applyUpdates_preserves, run_preserves; intros;
    first [ now apply timeInRange_gameTick
          | match goal with s : Side |- _ => now destruct s end
          | match goal with |- timeInRange (fst (switchCamera ?c _)) =>
              unfold switchCamera; now destruct (c =? 2) end
          | match goal with |- timeInRange (moveTick _ _ _) =>
              unfold timeInRange, moveTick; now destruct (find _ _) end
          | assumption
          | unfold timeInRange, NIGHT_DURATION; cbn; lia ].
Qed.

(** X8: along every run the clock stays from 0 to 359, so the label
    [formatTime] puts on screen is 12 AM during the first 60 ticks and
    then 13 AM, 14 AM, 15 AM, 16 AM and 17 AM, each for 60 ticks, and
    never any other. *)
Theorem clock_label_along_runs (rnd : Rng) (evs : list Event) (us : list Update) :
  let d := fst (applyUpdates rnd (run rnd evs initialApp) us) in
  0 <= time d < 360
  /\ formatTime (time d)
     = nth (Z.to_nat (time d / 60))
           ["12 AM"; "13 AM"; "14 AM"; "15 AM"; "16 AM"; "17 AM"]%string ""%string
  /\ In (formatTime (time d))
        ["12 AM"; "13 AM"; "14 AM"; "15 AM"; "16 AM"; "17 AM"]%string.
Proof.
  intros d. pose proof (timeInRange_run rnd evs us) as H. fold d in H.
  unfold timeInRange, NIGHT_DURATION in H. split; [exact H|].
  unfold formatTime.
  assert (Hh : 0 <= time d / 60 < 6)
    by (split; [apply Z.div_pos; lia | apply Z.div_lt_upper_bound; lia]).
  assert (Hc : time d / 60 = 0 \/ time d / 60 = 1 \/ time d / 60 = 2
               \/ time d / 60 = 3 \/ time d / 60 = 4 \/ time d / 60 = 5) by lia.
  destruct Hc as [E|[E|[E|[E|[E|E]]]]]; rewrite E; vm_compute; intuition.
Qed.

(** ** The cast along a run *)

Lemma rosterInvariant_fields (d d' : GameData) :
  animatronics d' = animatronics d -> night d' = night d -> bossMode d' = bossMode d ->
  rosterInvariant d -> rosterInvariant d'.
Proof. unfold rosterInvariant. now intros -> -> ->. Qed.

Lemma gameTick_night (c : bool) (d : GameData) : night (gameTick c d) = night d.
Proof.
  unfold gameTick.
  repeat match goal with |- context [if ?b then _ else _] => destruct b end;
    reflexivity.
Qed.

Lemma moveTick_night (rnd : Rng) (i : nat) (d : GameData) :
  night (moveTick rnd i d) = night d /\ bossMode (moveTick rnd i d) = bossMode d.
Proof. unfold moveTick. now destruct (find _ _). Qed.

Lemma rosterInvariant_initializeNight (n : Z) (d : GameData) :
  rosterInvariant (initializeNight n d).
Proof.
  destruct (initializeNight_table n d) as (Htab & _ & Hboss).
  unfold rosterInvariant. split; [|split; [|split; [exact Hboss | left; exact Htab]]].
  - apply (f_equal (map fst)) in Htab. rewrite map_map in Htab. exact Htab.
  - unfold initializeNight, nightAnimatronics. cbn [animatronics].
    destruct (n =? 5); repeat constructor;
      cbn [freshAnimatronic set_isActive name isActive location moveTimer atDoor
           soundPlayed doorTimer];
      intros H; rewrite ?H; reflexivity || discriminate H.
Qed.

Lemma Forall2_identity (l l' : list Animatronic) :
  Forall2 (fun old new =>
             name new = name old /\ isActive new = isActive old
             /\ (isActive old = false -> new = old)) l l' ->
  map name l' = map name l
  /\ map isActive l' = map isActive l
  /\ map (fun a => (name a, isActive a)) l' = map (fun a => (name a, isActive a)) l
  /\ (Forall (fun a => isActive a = false -> a = freshAnimatronic (name a) false) l ->
      Forall (fun a => isActive a = false -> a = freshAnimatronic (name a) false) l').
Proof.
  induction 1 as [|a b l l' (Hn & Ha & Hsame) _ (IHn & IHa & IHp & IHf)]; cbn [map].
  - repeat split; auto.
  - rewrite Hn, Ha, IHn, IHa, IHp. repeat split.
    intros Hl. inversion Hl as [|? ? Hfa Hfl]; subst. constructor; [|auto].
    intros Hb. rewrite Ha in Hb. rewrite (Hsame Hb). auto.
Qed.

Lemma rosterInvariant_moveTick (rnd : Rng) (i : nat) (d : GameData) :
  rosterInvariant d -> rosterInvariant (moveTick rnd i d).
Proof.
  intros (Hn & Hf & Hb & Ht).
  destruct (moveTick_night rnd i d) as [Hnight Hboss].
  destruct (Forall2_identity _ _
              (moveTick_Forall2 _ rnd i d (step_keeps_identity rnd d)))
    as (En & Ea & Ep & Ef).
  unfold rosterInvariant. rewrite Hnight, Hboss, En, Ea, Ep. auto.
Qed.

Lemma rosterInvariant_run (rnd : Rng) (evs : list Event) (us : list Update) :
  rosterInvariant (fst (applyUpdates rnd (run rnd evs initialApp) us)).
Proof.
  apply applyUpdates_preserves, run_preserves; intros;
    first [ apply rosterInvariant_initializeNight
          | now apply rosterInvariant_moveTick
          | match goal with H : rosterInvariant ?d |- rosterInvariant ?d' =>
              apply (rosterInvariant_fields d d');
              [ first [ apply gameTick_animatronics | apply toggleDoor_animatronics
                      | apply switchCamera_animatronics | reflexivity ]
              | first [ apply gameTick_night
                      | match goal with s : Side |- _ => now destruct s end
                      | unfold switchCamera;
                        match goal with |- context [?c =? 2] => now destruct (c =? 2) end
                      | reflexivity ]
              | first [ apply gameTick_doors
                      | match goal with s : Side |- _ => now destruct s end
                      | unfold switchCamera;
                        match goal with |- context [?c =? 2] => now destruct (c =? 2) end
                      | reflexivity ]
              | exact H ] end
          | idtac ].
  unfold rosterInvariant. cbn.
  split; [reflexivity|]. split; [repeat constructor|]. split; [reflexivity|].
  right. split; reflexivity.
Qed.

(** X9: in every state of every run, committed or between two updaters
    of a commit, the actors are Deddy, Gen and Poppy in that order; an
    inactive actor stands on the stage exactly as night initialisation
    left it; boss mode is on exactly on night 5, and then Deddy alone is
    active; and the active flags are those of the night's table, or all
    clear on night 1 before the first start. *)
Theorem roster_along_runs (rnd : Rng) (evs : list Event) (us : list Update) :
  let d := fst (applyUpdates rnd (run rnd evs initialApp) us) in
  map name (animatronics d) = [Deddy; Gen; Poppy]
  /\ (forall a, In a (animatronics d) -> isActive a = false ->
        a = freshAnimatronic (name a) false)
  /\ bossMode d = (night d =? 5)
  /\ (bossMode d = true -> map isActive (animatronics d) = [true; false; false])
  /\ (map (fun a => (name a, isActive a)) (animatronics d) = activation (night d)
      \/ night d = 1 /\ map isActive (animatronics d) = [false; false; false]).
Proof.
  intros d. destruct (rosterInvariant_run rnd evs us) as (Hn & Hf & Hb & Ht). fold d in Hn, Hf, Hb, Ht.
  split; [exact Hn|]. split; [|split; [exact Hb | split; [|exact Ht]]].
  - rewrite Forall_forall in Hf. exact Hf.
  - intros Hboss. rewrite Hb in Hboss. apply Z.eqb_eq in Hboss.
    destruct Ht as [Ht|[Hone _]]; [|lia].
    rewrite Hboss in Ht. apply (f_equal (map snd)) in Ht. rewrite map_map in Ht. exact Ht.
Qed.

(** ** The campaign *)

Lemma fold_armed (J : GameData -> Prop) (rnd : Rng) (c : bool) (ok : Update -> bool) :
  (forall u d i, ok u = true -> J d -> J (fst (applyUpdate rnd c (d, i) u))) ->
  forall us s, J (fst s) ->
    J (fst (fold_left (applyUpdate rnd c) (filter ok us) s)).
Proof.
  intros Hstep us. induction us as [|u us IH]; intros [d i] Hs; [exact Hs|].
  cbn [filter]. destruct (ok u) eqn:Hu; [|now apply IH].
  cbn [fold_left]. apply IH.
  destruct (applyUpdate rnd c (d, i) u) as [d' i'] eqn:E.
  specialize (Hstep u d i Hu Hs). now rewrite E in Hstep.
Qed.

(** On the menu screen the one button is the start button; its updater
    is constant, so a commit either leaves the state alone or holds the
    fresh state of night 1. *)
Lemma applyUpdates_menu (rnd : Rng) (a : App) (us : list Update) :
  phase a = menu ->
  fst (applyUpdates rnd a us)
  = if existsb isStartGame us then initializeNight 1 (gameData a) else gameData a.
Proof.
  intros Hp. unfold applyUpdates.
  rewrite (filter_ext (armed a) isStartGame)
    by (intros u; unfold armed; rewrite Hp; now destruct u).
  generalize (randomCalls a) as i. generalize (gameData a) as d.
  induction us as [|u us IH]; intros d i; [reflexivity|].
  cbn [filter existsb].
  destruct u; cbn [isStartGame orb fold_left applyUpdate]; try apply IH.
  rewrite IH. unfold startGame. now destruct (existsb _ _).
Qed.

(** On the game-over and victory screens the one button is the restart
    button. *)
Lemma applyUpdates_over (rnd : Rng) (a : App) (us : list Update) :
  phase a = gameOver \/ phase a = victory ->
  fst (applyUpdates rnd a us)
  = if existsb isRestartGame us then restartGame (gameData a) else gameData a.
Proof.
  intros Hp. unfold applyUpdates.
  rewrite (filter_ext (armed a) isRestartGame)
    by (intros u; unfold armed; destruct Hp as [-> | ->]; now destruct u).
  generalize (randomCalls a) as i. generalize (gameData a) as d.
  induction us as [|u us IH]; intros d i; [reflexivity|].
  cbn [filter existsb].
  destruct u; cbn [isRestartGame orb fold_left applyUpdate]; try apply IH.
  rewrite IH. now destruct (existsb _ _).
Qed.

Lemma applyUpdates_playing (rnd : Rng) (a : App) (us : list Update) :
  phase a = playing ->
  1 <= night (gameData a) <= 5 ->
  let d := fst (applyUpdates rnd a us) in
  1 <= night d <= 5
  /\ (gameState d = menu -> night d < 5)
  /\ (gameState d = victory -> night d = 5).
Proof.
  intros Hp Hn. unfold applyUpdates.
  apply (fold_armed (fun d => 1 <= night d <= 5
                              /\ (gameState d = menu -> night d < 5)
                              /\ (gameState d = victory -> night d = 5))).
  - intros u d i Hu (Hr & Hm & Hv). unfold armed in Hu. rewrite Hp in Hu.
    destruct u; try discriminate Hu; cbn [applyUpdate fst].
    + destruct side; cbn; auto.
    + unfold switchCamera. destruct (camera =? 2); cbn; auto.
    + unfold gameTick. destruct (_ <=? 0)%float.
      * cbn. repeat split; try lia; intros; discriminate.
      * destruct (NIGHT_DURATION <=? time d + 1).
        -- destruct (Z.leb_spec 5 (night d)); cbn; repeat split; try lia; intros; discriminate.
        -- cbn. auto.
    + destruct (moveTick_night rnd i d) as [E _]. rewrite E.
      pose proof (moveTick_gameState rnd i d) as G. rewrite G.
      destruct (existsb _ _); repeat split; auto; try lia; intros; discriminate.
  - cbn [fst]. unfold phase in Hp. rewrite Hp. repeat split; try lia; intros; discriminate.
Qed.

Lemma step_campaignInvariant (rnd : Rng) (e : Event) (a : App)
    (from : option GameState) :
  campaignInvariant a from ->
  campaignInvariant (step rnd e a)
    (if GameState_eqb (phase a) (phase (step rnd e a)) then from else Some (phase a)).
Proof.
  intros (Hauto & Hr & Hm & Hv).
  split; [now apply step_autoAdvanceInvariant|].
  assert (Hrefl : GameState_eqb (phase a) (phase a) = true) by now apply GameState_eqb_eq.
  destruct e; cbn [step].
  - pose proof (applyUpdates_menu rnd a updates) as Hmenu.
    pose proof (applyUpdates_over rnd a updates) as Hover.
    pose proof (applyUpdates_playing rnd a updates) as Hplay.
    destruct (applyUpdates rnd a updates) as [d i]. cbn [fst] in *.
    unfold phase in *. rewrite setGameData_gameData.
    destruct (gameState (gameData a)) eqn:Hp.
    + rewrite (Hmenu eq_refl). destruct (existsb isStartGame updates).
      * cbn. repeat split; try lia; intros; discriminate.
      * rewrite Hp. cbn [GameState_eqb]. repeat split; auto; try lia.
    + destruct (Hplay eq_refl Hr) as (Hr' & Hm' & Hv').
      split; [exact Hr'|]. split; [|exact Hv']. intros Hd _. auto.
    + rewrite (Hover (or_introl eq_refl)). destruct (existsb isRestartGame updates).
      * cbn. repeat split; try lia; intros; discriminate.
      * rewrite Hp. repeat split; try lia; intros; discriminate.
    + rewrite (Hover (or_intror eq_refl)). destruct (existsb isRestartGame updates).
      * cbn. repeat split; try lia; intros; discriminate.
      * rewrite Hp. repeat split; auto; try lia; intros; discriminate.
  - destruct (GameState_eqb (phase a) playing); unfold phase in *; cbn [gameData];
      rewrite Hrefl; auto.
  - destruct (GameState_eqb (phase a) playing); unfold phase in *; cbn [gameData];
      rewrite Hrefl; auto.
  - destruct (autoAdvance a) as [t|] eqn:Ht.
    + destruct Hauto as [Hpend _]. rewrite Ht in Hpend.
      unfold phase in *. rewrite setGameData_gameData.
      destruct (gameState (gameData a)); cbn in Hpend; try discriminate Hpend.
      destruct (enteredFromPlaying from) eqn:Hfrom; cbn in Hpend; [|discriminate Hpend].
      injection Hpend as ->. specialize (Hm eq_refl eq_refl).
      cbn. repeat split; try lia; intros; discriminate.
    + rewrite Hrefl. auto.
Qed.

Lemma run_campaignInvariant (rnd : Rng) (evs : list Event) :
  forall a from,
    campaignInvariant a from ->
    campaignInvariant (run rnd evs a) (precedingPhase rnd evs a from).
Proof.
  induction evs as [|e evs IH]; intros a from Ha; [exact Ha|].
  cbn [run fold_left precedingPhase]. apply IH.
  now apply step_campaignInvariant.
Qed.

Lemma initialApp_campaignInvariant : campaignInvariant initialApp None.
Proof.
  split; [split; reflexivity|]. cbn. repeat split; try lia; intros; discriminate.
Qed.

(** X10: along every run the night index stays from 1 to 5; a pending
    auto-advance is then always for one of the nights 2 to 5; the
    victory screen is reached on night 5 only; and a menu entered from
    [playing] is that of a night below 5. *)
Theorem nights_one_to_five (rnd : Rng) (evs : list Event) :
  let a := run rnd evs initialApp in
  1 <= night (gameData a) <= 5
  /\ (forall t, autoAdvance a = Some t -> 2 <= nextNight t <= 5)
  /\ (phase a = victory -> night (gameData a) = 5)
  /\ (phase a = menu ->
      precedingPhase rnd evs initialApp None = Some playing ->
      night (gameData a) < 5).
Proof.
  intros a.
  destruct (run_campaignInvariant rnd evs initialApp None initialApp_campaignInvariant)
    as ([Hpend _] & Hr & Hm & Hv).
  fold a in Hpend, Hr, Hm, Hv.
  split; [exact Hr|]. split; [|split; [exact Hv|]].
  - intros t Ht. rewrite Ht in Hpend.
    destruct (phase a) eqn:Hp; cbn in Hpend; try discriminate Hpend.
    destruct (enteredFromPlaying _) eqn:Hfrom; cbn in Hpend; [|discriminate Hpend].
    injection Hpend as ->. specialize (Hm eq_refl eq_refl). cbn. lia.
  - intros Hp Hfrom. apply Hm; [exact Hp | now rewrite Hfrom].
Qed.

(** X11: along every run, the phase [playing] is entered in two ways
    only.  A commit from the menu that holds a press of the start
    button enters the fresh state of night 1, whatever night the menu
    stands at; and the pending timeout of a menu entered from [playing]
    enters the fresh state of the next night.  No event leads from
    [gameOver] or [victory] to [playing]. *)
Theorem playing_entered_at_night_1_or_next (rnd : Rng) (evs : list Event) (e : Event) :
  let a := run rnd evs initialApp in
  GameState_eqb (phase a) playing = false ->
  phase (step rnd e a) = playing ->
  phase a = menu
  /\ ((exists us, e = Commit us /\ existsb isStartGame us = true
         /\ gameData (step rnd e a) = initializeNight 1 (gameData a))
      \/ (e = AutoAdvance
          /\ precedingPhase rnd evs initialApp None = Some playing
          /\ gameData (step rnd e a)
             = initializeNight (night (gameData a) + 1) (gameData a))).
Proof.
  intros a Hnot Hin.
  destruct (run_autoAdvanceInvariant rnd evs initialApp None
              initialApp_autoAdvanceInvariant) as [Hpend _].
  fold a in Hpend.
  destruct e; cbn [step] in Hin |- *.
  - pose proof (applyUpdates_menu rnd a updates) as Hmenu.
    pose proof (applyUpdates_over rnd a updates) as Hover.
    destruct (applyUpdates rnd a updates) as [d i]. cbn [fst] in *.
    unfold phase in Hin. rewrite setGameData_gameData in *.
    destruct (phase a) eqn:Hp; try discriminate Hnot.
    + split; [reflexivity|]. left. exists updates.
      rewrite (Hmenu eq_refl) in *.
      destruct (existsb isStartGame updates); [repeat split|].
      unfold phase in Hp. congruence.
    + rewrite (Hover (or_introl eq_refl)) in Hin.
      destruct (existsb isRestartGame updates); [discriminate Hin|].
      unfold phase in Hp. congruence.
    + rewrite (Hover (or_intror eq_refl)) in Hin.
      destruct (existsb isRestartGame updates); [discriminate Hin|].
      unfold phase in Hp. congruence.
  - rewrite Hnot in Hin. apply GameState_eqb_eq in Hin. congruence.
  - rewrite Hnot in Hin. apply GameState_eqb_eq in Hin. congruence.
  - destruct (autoAdvance a) as [t|] eqn:Ht.
    + rewrite setGameData_gameData.
      destruct (phase a) eqn:Hp; cbn in Hpend; try discriminate Hpend.
      destruct (precedingPhase rnd evs initialApp None) as [[]|];
        cbn in Hpend; try discriminate Hpend.
      injection Hpend as ->. split; [reflexivity|]. right. repeat split.
    + apply GameState_eqb_eq in Hin. congruence.
Qed.

Lemma playing_entered_at_night_1_or_next_witness :
  let a := run alwaysHigh [] initialApp in
  let e := Commit [RestartGame; StartGame] in
  phase a = menu
  /\ ((exists us, e = Commit us /\ existsb isStartGame us = true
         /\ gameData (step alwaysHigh e a) = initializeNight 1 (gameData a))
      \/ (e = AutoAdvance
          /\ precedingPhase alwaysHigh [] initialApp None = Some playing
          /\ gameData (step alwaysHigh e a)
             = initializeNight (night (gameData a) + 1) (gameData a))).
Proof.
  apply (playing_entered_at_night_1_or_next alwaysHigh []
           (Commit [RestartGame; StartGame])); reflexivity.
Defined.

(** ** Repeated callbacks on one actor *)

Lemma stepTimes_add (rnd : Rng) (prev : GameData) (n m : nat) :
  forall i a,
    stepTimes rnd prev (n + m) i a
    = stepTimes rnd prev m (drawsTimes rnd prev n i a) (stepTimes rnd prev n i a)
    /\ drawsTimes rnd prev (n + m) i a
       = drawsTimes rnd prev m (drawsTimes rnd prev n i a) (stepTimes rnd prev n i a).
Proof.
  induction n as [|n IH]; intros i a; [split; reflexivity|].
  cbn [Nat.add stepTimes drawsTimes]. apply IH.
Qed.

Lemma open_door_step (rnd : Rng) (prev : GameData) (i : nat)
    (n : AnimatronicType) (l : CameraLocation) (mt : Z) (sp : bool) (dt : option Z) :
  isBlockedByDoor (mkAnimatronic n l true mt true sp dt)
    (leftDoorClosed prev) (rightDoorClosed prev) = false ->
  stepAnimatronic rnd prev i (mkAnimatronic n l true mt true sp dt)
  = mkStep (mkAnimatronic n l true mt true sp dt)
      (if 80 <=? orZero dt + 1
       then mkAnimatronic n l true mt true sp (Some (orZero dt + 1))
       else mkAnimatronic n l true (mt + 1) true sp (Some (orZero dt + 1)))
      false i.
Proof.
  intros Hbl. unfold stepAnimatronic.
  cbn [name location isActive moveTimer atDoor soundPlayed doorTimer negb].
  unfold isBlockedByDoor in Hbl. cbn [location] in Hbl. rewrite Hbl.
  now destruct (80 <=? orZero dt + 1).
Qed.

(** While the counter stays below 80, a callback on an active actor
    flagged at a door that is not closed on it adds one to both
    timers and draws nothing. *)
Lemma stall_steps (rnd : Rng) (prev : GameData) (m : nat) :
  forall i n l mt sp dt,
    isBlockedByDoor (mkAnimatronic n l true mt true sp dt)
      (leftDoorClosed prev) (rightDoorClosed prev) = false ->
    orZero dt + Z.of_nat m < 80 ->
    stepTimes rnd prev m i (mkAnimatronic n l true mt true sp dt)
    = mkAnimatronic n l true (mt + Z.of_nat m) true sp
        (match m with O => dt | S _ => Some (orZero dt + Z.of_nat m) end)
    /\ drawsTimes rnd prev m i (mkAnimatronic n l true mt true sp dt) = i.
Proof.
  induction m as [|m IH]; intros i n l mt sp dt Hbl Hlt.
  - cbn [stepTimes drawsTimes Z.of_nat]. now rewrite Z.add_0_r.
  - cbn [stepTimes drawsTimes]. rewrite (open_door_step rnd prev i n l mt sp dt Hbl).
    destruct (Z.leb_spec 80 (orZero dt + 1)); [lia|]. cbn [returned draws].
    destruct (IH i n l (mt + 1) sp (Some (orZero dt + 1))) as [E1 E2];
      [exact Hbl | cbn [orZero]; lia |].
    rewrite E1, E2. split; [|reflexivity]. cbn [orZero].
    f_equal; [lia|]. destruct m; f_equal; lia.
Qed.

(** X12: an active actor flagged at a door that is not closed on it,
    with a stall counter [k] below 80, is left flagged at that door by
    each of the next [79 - k] callbacks, the counter rising by one each
    time and no draw being made; the callback after those sets the
    counter to 80, which is what ends the game.  An actor that has just
    arrived ([k = 0]) is therefore caught by the 80th callback. *)
Theorem stall_countdown (rnd : Rng) (prev : GameData) (i : nat) (a : Animatronic) :
  isActive a = true -> atDoor a = true ->
  isBlockedByDoor a (leftDoorClosed prev) (rightDoorClosed prev) = false ->
  orZero (doorTimer a) < 80 ->
  let k := orZero (doorTimer a) in
  let safe := Z.to_nat (79 - k) in
  (forall m, (m <= safe)%nat ->
     let b := stepTimes rnd prev m i a in
     tooLongAtDoor b = false
     /\ location b = location a /\ atDoor b = true
     /\ orZero (doorTimer b) = k + Z.of_nat m
     /\ moveTimer b = moveTimer a + Z.of_nat m
     /\ drawsTimes rnd prev m i a = i)
  /\ tooLongAtDoor (stepTimes rnd prev (S safe) i a) = true
  /\ doorTimer (stepTimes rnd prev (S safe) i a) = Some 80.
Proof.
  destruct a as [n l act mt ad sp dt].
  cbn [isActive atDoor doorTimer location moveTimer]. intros -> -> Hbl Hk.
  set (k := orZero dt). set (safe := Z.to_nat (79 - k)).
  split.
  - intros m Hm.
    destruct (stall_steps rnd prev m i n l mt sp dt Hbl) as [E1 E2]; [lia|].
    rewrite E1, E2. unfold tooLongAtDoor.
    cbn [atDoor doorTimer location moveTimer andb].
    assert (Ho : orZero (match m with O => dt | S _ => Some (orZero dt + Z.of_nat m) end)
                 = k + Z.of_nat m)
      by (destruct m; cbn [orZero Z.of_nat]; unfold k; lia).
    rewrite Ho. repeat split. apply Z.leb_gt. lia.
  - replace (S safe) with (safe + 1)%nat by lia.
    destruct (stepTimes_add rnd prev safe 1 i (mkAnimatronic n l true mt true sp dt))
      as [E _].
    rewrite E. clear E.
    destruct (stall_steps rnd prev safe i n l mt sp dt Hbl) as [E1 E2]; [lia|].
    rewrite E1, E2. cbn [stepTimes].
    rewrite open_door_step by exact Hbl.
    assert (Ho : orZero (match safe with
                         | O => dt | S _ => Some (orZero dt + Z.of_nat safe) end) = 79)
      by (destruct safe eqn:Es; cbn [orZero]; unfold k in *; lia).
    rewrite Ho. cbn. split; reflexivity.
Qed.

Lemma stall_countdown_witness :
  tooLongAtDoor (stepTimes alwaysHigh stalledAtRightDoor 0 2 genAtRightDoor) = false
  /\ tooLongAtDoor (stepTimes alwaysHigh stalledAtRightDoor 1 2 genAtRightDoor) = true.
Proof.
  destruct (stall_countdown alwaysHigh stalledAtRightDoor 2 genAtRightDoor)
    as (Hsafe & Hcaught & _); try reflexivity.
  split; [apply (Hsafe 0%nat); apply le_n | exact Hcaught].
Defined.

(** ** From the stage to a door *)

(** Below the dwell threshold of its location, a callback on an active
    actor that is not Deddy in boss mode adds one to the move timer and
    draws nothing. *)
Lemma dwell_steps (rnd : Rng) (prev : GameData) (m : nat) :
  forall i n l mt sp,
    bossMode prev && AnimatronicType_eqb n Deddy = false ->
    isDoor l = false ->
    mt + Z.of_nat m < dwellThreshold l ->
    stepTimes rnd prev m i (mkAnimatronic n l true mt false sp (Some 0))
    = mkAnimatronic n l true (mt + Z.of_nat m) false sp (Some 0)
    /\ drawsTimes rnd prev m i (mkAnimatronic n l true mt false sp (Some 0)) = i.
Proof.
  induction m as [|m IH]; intros i n l mt sp Hnb Hl Hlt.
  - cbn [stepTimes drawsTimes Z.of_nat]. now rewrite Z.add_0_r.
  - assert (Hstep : stepAnimatronic rnd prev i (mkAnimatronic n l true mt false sp (Some 0))
                    = mkStep (mkAnimatronic n l true mt false sp (Some 0))
                        (mkAnimatronic n l true (mt + 1) false sp (Some 0)) false i).
    { unfold stepAnimatronic, shouldMove, isBlockedByDoor.
      cbn [name location isActive moveTimer atDoor soundPlayed doorTimer negb].
      rewrite Hnb.
      destruct l; try discriminate Hl; cbn [dwellThreshold] in Hlt;
        cbn [CameraLocation_eqb andb orb];
        match goal with |- context [?t <=? mt + 1] =>
          destruct (Z.leb_spec t (mt + 1)); [lia|] end;
        reflexivity. }
    cbn [stepTimes drawsTimes]. rewrite Hstep. cbn [returned draws].
    destruct (IH i n l (mt + 1) sp Hnb Hl) as [E1 E2]; [lia|].
    rewrite E1, E2. split; [|reflexivity]. f_equal. lia.
Qed.

(** At the threshold the actor moves on along the graph. *)
Lemma threshold_step (rnd : Rng) (prev : GameData) (i : nat)
    (n : AnimatronicType) (l : CameraLocation) (mt : Z) (sp : bool) :
  isDoor l = false ->
  dwellThreshold l <= mt + 1 ->
  let s := stepAnimatronic rnd prev i (mkAnimatronic n l true mt false sp (Some 0)) in
  returned s
  = mkAnimatronic n (nextNode l (rnd i)) true 0 (isDoor (nextNode l (rnd i)))
      (sp || AnimatronicType_eqb n Deddy) (Some 0)
  /\ draws s = (if CameraLocation_eqb l cam1 then S i else i).
Proof.
  intros Hl Hge. unfold stepAnimatronic, shouldMove, moveAnimatronic.
  cbn [name location isActive moveTimer atDoor soundPlayed doorTimer negb].
  destruct l; try discriminate Hl; cbn [dwellThreshold] in Hge;
    cbn [CameraLocation_eqb andb orb nextNode];
    match goal with |- context [?t <=? mt + 1] =>
      destruct (Z.leb_spec t (mt + 1)); [|lia] end;
    cbn [orb]; destruct n, sp; try destruct (rnd i <? 0.5)%float; split; reflexivity.
Qed.

(** A whole stay: an actor that enters a location with its timer at 0
    leaves it on the callback that brings the timer to the threshold. *)
Lemma whole_stay (rnd : Rng) (prev : GameData) (i : nat)
    (n : AnimatronicType) (l : CameraLocation) (sp : bool) :
  bossMode prev && AnimatronicType_eqb n Deddy = false ->
  isDoor l = false ->
  let a := mkAnimatronic n l true 0 false sp (Some 0) in
  let stay := Z.to_nat (dwellThreshold l) in
  (forall m, (m < stay)%nat ->
     stepTimes rnd prev m i a = mkAnimatronic n l true (Z.of_nat m) false sp (Some 0)
     /\ drawsTimes rnd prev m i a = i)
  /\ stepTimes rnd prev stay i a
     = mkAnimatronic n (nextNode l (rnd i)) true 0 (isDoor (nextNode l (rnd i)))
         (sp || AnimatronicType_eqb n Deddy) (Some 0)
  /\ drawsTimes rnd prev stay i a = (if CameraLocation_eqb l cam1 then S i else i).
Proof.
  intros Hnb Hl a stay.
  assert (Hpos : 80 <= dwellThreshold l) by (destruct l; cbn; lia).
  assert (Hdwell : forall m, (m < stay)%nat ->
    stepTimes rnd prev m i a = mkAnimatronic n l true (Z.of_nat m) false sp (Some 0)
    /\ drawsTimes rnd prev m i a = i).
  { intros m Hm. apply (dwell_steps rnd prev m i n l 0 sp Hnb Hl). unfold stay in Hm. lia. }
  split; [exact Hdwell|].
  replace stay with (Nat.pred stay + 1)%nat by (unfold stay; lia).
  destruct (stepTimes_add rnd prev (Nat.pred stay) 1 i a) as [E1 E2].
  destruct (Hdwell (Nat.pred stay)) as [D1 D2]; [unfold stay; lia|].
  rewrite E1, E2, D1, D2. cbn [stepTimes drawsTimes].
  apply threshold_step; [exact Hl | unfold stay; lia].
Qed.

Lemma fresh_walk (rnd : Rng) (prev : GameData) (i : nat) (n : AnimatronicType) :
  bossMode prev && AnimatronicType_eqb n Deddy = false ->
  let a := freshAnimatronic n true in
  (forall m, (m < 80)%nat ->
     location (stepTimes rnd prev m i a) = stage
     /\ drawsTimes rnd prev m i a = i)
  /\ (forall m, (80 <= m < 170)%nat ->
        location (stepTimes rnd prev m i a) = cam3
        /\ drawsTimes rnd prev m i a = i)
  /\ (forall m, (170 <= m < 270)%nat ->
        location (stepTimes rnd prev m i a) = cam1
        /\ drawsTimes rnd prev m i a = i)
  /\ stepTimes rnd prev 270 i a
     = mkAnimatronic n (if (rnd i <? 0.5)%float then leftDoor else rightDoor)
         true 0 true (AnimatronicType_eqb n Deddy) (Some 0)
  /\ drawsTimes rnd prev 270 i a = S i.
Proof.
  intros Hnb a.
  destruct (whole_stay rnd prev i n stage false Hnb eq_refl) as (S1 & S2 & S3).
  destruct (whole_stay rnd prev i n cam3 (AnimatronicType_eqb n Deddy) Hnb eq_refl)
    as (C1 & C2 & C3).
  destruct (whole_stay rnd prev i n cam1 (AnimatronicType_eqb n Deddy) Hnb eq_refl)
    as (H1 & H2 & H3).
  cbn [dwellThreshold nextNode isDoor CameraLocation_eqb orb] in *.
  rewrite orb_diag in *.
  change (Z.to_nat 80) with 80%nat in *. change (Z.to_nat 90) with 90%nat in *.
  change (Z.to_nat 100) with 100%nat in *.
  fold (freshAnimatronic n true) in S1, S2, S3. fold a in S1, S2, S3.
  assert (A170 : stepTimes rnd prev 170 i a
                 = mkAnimatronic n cam1 true 0 false (AnimatronicType_eqb n Deddy) (Some 0)
                 /\ drawsTimes rnd prev 170 i a = i).
  { destruct (stepTimes_add rnd prev 80 90 i a) as [E1 E2].
    change (80 + 90)%nat with 170%nat in E1, E2.
    rewrite E1, E2, S2, S3. split; assumption. }
  destruct A170 as [A1 A2].
  split; [|split; [|split; [|split]]].
  - intros m Hm. destruct (S1 m Hm) as [E1 E2]. rewrite E1. split; [reflexivity | exact E2].
  - intros m Hm. replace m with (80 + (m - 80))%nat by lia.
    destruct (stepTimes_add rnd prev 80 (m - 80) i a) as [E1 E2].
    rewrite E1, E2, S2, S3. destruct (C1 (m - 80)%nat) as [D1 D2]; [lia|].
    rewrite D1, D2. split; reflexivity.
  - intros m Hm. replace m with (170 + (m - 170))%nat by lia.
    destruct (stepTimes_add rnd prev 170 (m - 170) i a) as [E1 E2].
    rewrite E1, E2, A1, A2. destruct (H1 (m - 170)%nat) as [D1 D2]; [lia|].
    rewrite D1, D2. split; reflexivity.
  - destruct (stepTimes_add rnd prev 170 100 i a) as [E1 _].
    change (170 + 100)%nat with 270%nat in E1.
    rewrite E1, A1, A2, H2. now destruct (rnd i <? 0.5)%float.
  - destruct (stepTimes_add rnd prev 170 100 i a) as [_ E2].
    change (170 + 100)%nat with 270%nat in E2.
    rewrite E2, A1, A2. exact H3.
Qed.

Lemma stepThrough_app (rnd : Rng) (p1 p2 : list GameData) :
  forall i a,
    stepThrough rnd (p1 ++ p2) i a
    = stepThrough rnd p2 (snd (stepThrough rnd p1 i a)) (fst (stepThrough rnd p1 i a)).
Proof.
  induction p1 as [|p p1 IH]; intros i a; [reflexivity|].
  cbn [app stepThrough]. apply IH.
Qed.

(** One callback along the walk, whatever state the tick finds. *)
Lemma walk_step (rnd : Rng) (prev : GameData) (i : nat) (n : AnimatronicType) (m : Z) :
  bossMode prev && AnimatronicType_eqb n Deddy = false ->
  0 <= m < 269 ->
  returned (stepAnimatronic rnd prev i (walkAt n m)) = walkAt n (m + 1)
  /\ draws (stepAnimatronic rnd prev i (walkAt n m)) = i.
Proof.
  intros Hnb Hm. unfold walkAt.
  destruct (Z.ltb_spec m 80), (Z.ltb_spec (m + 1) 80),
    (Z.ltb_spec m 170), (Z.ltb_spec (m + 1) 170); try lia.
  - destruct (dwell_steps rnd prev 1 i n stage m false Hnb eq_refl) as [E1 E2];
      [cbn; lia|].
    cbn [stepTimes drawsTimes] in E1, E2. rewrite E1, E2. split; [f_equal; lia | reflexivity].
  - assert (m = 79) by lia. subst m.
    exact (threshold_step rnd prev i n stage 79 false eq_refl ltac:(cbn; lia)).
  - destruct (dwell_steps rnd prev 1 i n cam3 (m - 80) (AnimatronicType_eqb n Deddy)
                Hnb eq_refl) as [E1 E2]; [cbn; lia|].
    cbn [stepTimes drawsTimes] in E1, E2. rewrite E1, E2. split; [f_equal; lia | reflexivity].
  - assert (m = 169) by lia. subst m.
    destruct (threshold_step rnd prev i n cam3 89 (AnimatronicType_eqb n Deddy)
                eq_refl ltac:(cbn; lia)) as [E1 E2].
    rewrite orb_diag in E1. split; [exact E1 | exact E2].
  - destruct (dwell_steps rnd prev 1 i n cam1 (m - 170) (AnimatronicType_eqb n Deddy)
                Hnb eq_refl) as [E1 E2]; [cbn; lia|].
    cbn [stepTimes drawsTimes] in E1, E2. rewrite E1, E2. split; [f_equal; lia | reflexivity].
Qed.

Lemma walk_through (rnd : Rng) (n : AnimatronicType) (prevs : list GameData) :
  forall i m,
    forallb (fun prev => negb (bossMode prev && AnimatronicType_eqb n Deddy)) prevs = true ->
    0 <= m -> m + Z.of_nat (List.length prevs) <= 269 ->
    stepThrough rnd prevs i (walkAt n m)
    = (walkAt n (m + Z.of_nat (List.length prevs)), i).
Proof.
  induction prevs as [|prev prevs IH]; intros i m Hnb H0 Hm.
  - cbn [stepThrough List.length Z.of_nat]. now rewrite Z.add_0_r.
  - cbn [forallb] in Hnb. apply andb_true_iff in Hnb. destruct Hnb as [Hp Hrest].
    apply negb_true_iff in Hp. cbn [List.length] in Hm |- *.
    destruct (walk_step rnd prev i n m Hp) as [E1 E2]; [lia|].
    cbn [stepThrough]. rewrite E1, E2, IH by (assumption || lia).
    do 2 f_equal. lia.
Qed.

Lemma walk_arrival (rnd : Rng) (prev : GameData) (i : nat) (n : AnimatronicType) :
  returned (stepAnimatronic rnd prev i (walkAt n 269))
  = mkAnimatronic n (if (rnd i <? 0.5)%float then leftDoor else rightDoor)
      true 0 true (AnimatronicType_eqb n Deddy) (Some 0)
  /\ draws (stepAnimatronic rnd prev i (walkAt n 269)) = S i.
Proof.
  destruct (threshold_step rnd prev i n cam1 99 (AnimatronicType_eqb n Deddy)
              eq_refl ltac:(cbn; lia)) as [E1 E2].
  rewrite orb_diag in E1. change (walkAt n 269)
    with (mkAnimatronic n cam1 true 99 false (AnimatronicType_eqb n Deddy) (Some 0)).
  rewrite E1, E2. cbn [nextNode]. now destruct (rnd i <? 0.5)%float.
Qed.

(** X13: an actor activated by night initialisation, other than Deddy
    in boss mode, stands after [m] scheduler callbacks on the stage if
    [m] is below 80, in the side hall (cam 3) from 80 to 169, in the
    hallway (cam 1) from 170 to 269, and at a door after the 270th,
    whatever state each callback finds: the doors may be open or closed
    and may change between any two callbacks.  Only the 270th callback
    draws a number: below 0.5 the left door, otherwise the right one.
    Deddy arrives with the alert flag set, the others with it clear. *)
Theorem walk_to_the_door (rnd : Rng) (prevs : list GameData) (i : nat)
    (n : AnimatronicType) :
  forallb (fun prev => negb (bossMode prev && AnimatronicType_eqb n Deddy)) prevs = true ->
  let m := List.length prevs in
  let after := stepThrough rnd prevs i (freshAnimatronic n true) in
  ((m < 270)%nat -> after = (walkAt n (Z.of_nat m), i))
  /\ ((m < 80)%nat -> location (fst after) = stage)
  /\ ((80 <= m < 170)%nat -> location (fst after) = cam3)
  /\ ((170 <= m < 270)%nat -> location (fst after) = cam1)
  /\ (m = 270%nat ->
      after = (mkAnimatronic n (if (rnd i <? 0.5)%float then leftDoor else rightDoor)
                 true 0 true (AnimatronicType_eqb n Deddy) (Some 0),
               S i)).
Proof.
  intros Hnb m after.
  assert (Hwalk : (m < 270)%nat -> after = (walkAt n (Z.of_nat m), i)).
  { intros Hm. unfold after, m.
    change (freshAnimatronic n true) with (walkAt n 0).
    rewrite walk_through by (assumption || lia). reflexivity. }
  split; [exact Hwalk|]. split; [|split; [|split]].
  - intros Hm. rewrite Hwalk by lia. cbn [fst]. unfold walkAt.
    destruct (Z.ltb_spec (Z.of_nat m) 80); [reflexivity | lia].
  - intros Hm. rewrite Hwalk by lia. cbn [fst]. unfold walkAt.
    destruct (Z.ltb_spec (Z.of_nat m) 80); [lia|].
    destruct (Z.ltb_spec (Z.of_nat m) 170); [reflexivity | lia].
  - intros Hm. rewrite Hwalk by lia. cbn [fst]. unfold walkAt.
    destruct (Z.ltb_spec (Z.of_nat m) 80); [lia|].
    destruct (Z.ltb_spec (Z.of_nat m) 170); [lia | reflexivity].
  - intros Hm. unfold after, m in *. clear Hwalk after m.
    destruct (exists_last (l := prevs)) as (front & last & ->);
      [intros ->; discriminate Hm|].
    rewrite length_app in Hm. cbn [List.length] in Hm.
    rewrite forallb_app in Hnb. apply andb_true_iff in Hnb. destruct Hnb as [Hfront _].
    rewrite stepThrough_app.
    change (freshAnimatronic n true) with (walkAt n 0).
    rewrite walk_through by (assumption || lia).
    cbn [fst snd stepThrough Z.add].
    replace (Z.of_nat (List.length front)) with 269 by lia.
    destruct (walk_arrival rnd last i n) as [E1 E2]. now rewrite E1, E2.
Qed.

Lemma walk_to_the_door_witness :
  stepThrough alwaysHigh doorsShutMidway 0 (freshAnimatronic Deddy true)
  = (mkAnimatronic Deddy rightDoor true 0 true true (Some 0), 1%nat).
Proof.
  destruct (walk_to_the_door alwaysHigh doorsShutMidway 0 Deddy)
    as (_ & _ & _ & _ & H); [reflexivity|].
  apply H. reflexivity.
Defined.

(** X14: closing a door on an active actor (other than Deddy in boss
    mode) sends it back to the stage as night initialisation made it,
    on the next callback; the 270 callbacks from that one on find it
    away from both doors, and the 271st puts it at a door again. *)
Theorem closed_door_buys_270_callbacks (rnd : Rng) (prev : GameData) (i : nat)
    (a : Animatronic) :
  isActive a = true -> atDoor a = true ->
  isBlockedByDoor a (leftDoorClosed prev) (rightDoorClosed prev) = true ->
  bossMode prev && AnimatronicType_eqb (name a) Deddy = false ->
  stepTimes rnd prev 1 i a = freshAnimatronic (name a) true
  /\ (forall m, (1 <= m <= 270)%nat ->
        isDoor (location (stepTimes rnd prev m i a)) = false)
  /\ isDoor (location (stepTimes rnd prev 271 i a)) = true.
Proof.
  intros Hact Hdoor Hbl Hnb.
  assert (Hone : forall m, stepTimes rnd prev (S m) i a
                           = stepTimes rnd prev m i (freshAnimatronic (name a) true)).
  { intros m. rewrite stepTimes_S, repelled_at_closed_door by assumption.
    cbn [returned draws]. unfold backToStage. now rewrite Hact. }
  destruct (fresh_walk rnd prev i (name a) Hnb) as (W1 & W2 & W3 & W4 & _).
  split; [apply (Hone 0%nat)|]. split.
  - intros [|m] Hm; [lia|]. rewrite Hone.
    destruct (Nat.lt_ge_cases m 80) as [H80|H80];
      [destruct (W1 m H80) as [E _]; now rewrite E|].
    destruct (Nat.lt_ge_cases m 170) as [H170|H170];
      [destruct (W2 m (conj H80 H170)) as [E _]; now rewrite E|].
    destruct (W3 m) as [E _]; [lia | now rewrite E].
  - rewrite Hone, W4. cbn [location]. now destruct (rnd i <? 0.5)%float.
Qed.

Lemma closed_door_buys_270_callbacks_witness :
  let shut := toggleDoor right stalledAtRightDoor in
  stepTimes alwaysHigh shut 1 2 genAtRightDoor = freshAnimatronic Gen true
  /\ (forall m, (1 <= m <= 270)%nat ->
        isDoor (location (stepTimes alwaysHigh shut m 2 genAtRightDoor)) = false)
  /\ isDoor (location (stepTimes alwaysHigh shut 271 2 genAtRightDoor)) = true.
Proof.
  apply (closed_door_buys_270_callbacks alwaysHigh
           (toggleDoor right stalledAtRightDoor) 2 genAtRightDoor); reflexivity.
Defined.

(** ** Boss mode *)

(** X15: in boss mode, when the jump draw is 0.045 or more, the
    callback returns for every actor what it returns outside boss mode,
    raises the alert in the same cases and leaves the same object
    behind; the one difference is the draw consumed by the jump test. *)
Theorem failed_boss_draw_is_normal_rule (rnd : Rng) (prev : GameData) (i : nat)
    (a : Animatronic) :
  (rnd i <? 0.045)%float = false ->
  let normal :=
    mkGameData (night prev) (time prev) (power prev) (leftDoorClosed prev)
      (rightDoorClosed prev) (currentCamera prev) (animatronics prev)
      (gameState prev) false in
  let s := stepAnimatronic rnd prev i a in
  let s' := stepAnimatronic rnd normal i a in
  returned s = returned s' /\ argument s = argument s' /\ played s = played s'
  /\ (draws s = draws s' \/ draws s = S (draws s')).
Proof.
  intros Hdraw. cbv zeta. unfold stepAnimatronic.
  cbn [bossMode leftDoorClosed rightDoorClosed andb]. rewrite Hdraw.
  repeat match goal with
         | |- context [if ?b then _ else _] => destruct b
         end; cbn [returned argument played draws]; auto.
Qed.

Lemma failed_boss_draw_is_normal_rule_witness :
  returned (stepAnimatronic alwaysHigh bossNight 93 deddyAtCam3)
  = mkAnimatronic Deddy cam3 true 6 false true (Some 0).
Proof.
  destruct (failed_boss_draw_is_normal_rule alwaysHigh bossNight 93 deddyAtCam3)
    as (H & _); [reflexivity|].
  rewrite H. reflexivity.
Defined.

(** ** Doors and the end of the game along a run *)

(** X16: in every state of every run, a scheduler tick ends the game
    exactly when an active actor located at a door that is open has a
    stall counter of 79 or more; with both doors closed it never
    does. *)
Theorem breach_needs_open_door (rnd : Rng) (evs : list Event) (us : list Update)
    (i : nat) :
  let d := fst (applyUpdates rnd (run rnd evs initialApp) us) in
  (gameState (moveTick rnd i d) = gameOver
   <-> gameState d = gameOver
       \/ exists a, In a (animatronics d) /\ isActive a = true
            /\ (location a = leftDoor /\ leftDoorClosed d = false
                \/ location a = rightDoor /\ rightDoorClosed d = false)
            /\ 79 <= orZero (doorTimer a))
  /\ (leftDoorClosed d = true -> rightDoorClosed d = true ->
      gameState (moveTick rnd i d) = gameState d).
Proof.
  intros d.
  pose proof (doorInvariant_run rnd evs us) as Hdoor.
  destruct (rosterInvariant_run rnd evs us) as (_ & Hfresh & _).
  fold d in Hdoor, Hfresh. unfold doorInvariant in Hdoor.
  rewrite Forall_forall in Hdoor, Hfresh.
  assert (Hb : existsb (breaches d) (animatronics d) = true
               <-> exists a, In a (animatronics d) /\ isActive a = true
                    /\ (location a = leftDoor /\ leftDoorClosed d = false
                        \/ location a = rightDoor /\ rightDoorClosed d = false)
                    /\ 79 <= orZero (doorTimer a)).
  { rewrite existsb_exists. split; intros (a & Hin & H); exists a; (split; [exact Hin|]).
    - unfold breaches in H. apply andb_true_iff in H. destruct H as [Had H].
      destruct (isActive a) eqn:Hact.
      + apply andb_true_iff in H. destruct H as [Hbl Ht].
        apply negb_true_iff in Hbl. apply Z.leb_le in Ht.
        split; [reflexivity|]. split; [|lia].
        rewrite (Hdoor a Hin) in Had. unfold isBlockedByDoor in Hbl.
        destruct (location a); try discriminate Had; cbn in Hbl.
        * left. split; [reflexivity|]. now destruct (leftDoorClosed d).
        * right. split; [reflexivity|]. now destruct (rightDoorClosed d).
      + rewrite (Hfresh a Hin Hact) in Had. discriminate Had.
    - destruct H as (Hact & Hloc & Ht). unfold breaches, isBlockedByDoor.
      rewrite (Hdoor a Hin), Hact.
      assert (Hleb : (80 <=? orZero (doorTimer a) + 1) = true) by (apply Z.leb_le; lia).
      rewrite Hleb.
      destruct Hloc as [[-> ->]|[-> ->]]; reflexivity. }
  split.
  - rewrite moveTick_gameState, <- Hb.
    destruct (existsb _ _); split; intros H; auto.
    destruct H as [H|H]; [exact H | discriminate H].
  - intros Hl Hr. rewrite moveTick_gameState.
    destruct (existsb _ _) eqn:E; [|reflexivity].
    destruct (proj1 Hb eq_refl) as (a & _ & _ & [[_ H]|[_ H]] & _); congruence.
Qed.

(** ** The door popups *)




(** ** What a ticker tick leaves alone *)

Lemma drained_zero (c : bool) (d : GameData) :
  (0 - powerDrain c d <=? 0)%float = true.
Proof.
  unfold powerDrain.
  destruct (leftDoorClosed d), (rightDoorClosed d), c; vm_compute; reflexivity.
Qed.

(** X18: a ticker tick changes nothing but the clock, the power level
    and the phase.  It either advances the clock by one, or leaves the
    clock alone and ends the night or the game; in the latter case a
    further ticker tick in the same commit changes nothing more. *)
Theorem gameTick_frame_and_end (c : bool) (prev : GameData) :
  set_gameState (gameState prev)
    (set_power (power prev) (set_time (time prev) (gameTick c prev))) = prev
  /\ (time (gameTick c prev) = time prev + 1
        /\ gameState (gameTick c prev) = gameState prev
      \/ time (gameTick c prev) = time prev
         /\ gameState (gameTick c prev) <> playing
         /\ gameTick c (gameTick c prev) = gameTick c prev).
Proof.
  pose proof (drained_zero c (set_power 0%float (set_gameState gameOver prev))) as Hz.
  destruct prev as [n t p l r cam an g b].
  unfold gameTick in *. unfold powerDrain in *.
  cbn [night time power leftDoorClosed rightDoorClosed currentCamera animatronics
       gameState bossMode set_gameState set_power set_time] in *.
  fold (powerDrain c (mkGameData n t p l r cam an g b)) in *.
  cbn [leftDoorClosed rightDoorClosed] in *.
  destruct (p - _ <=? 0)%float eqn:Hp.
  - split; [reflexivity|]. right.
    cbn [night time power leftDoorClosed rightDoorClosed currentCamera animatronics
         gameState bossMode set_gameState set_power set_time].
    rewrite Hz. repeat split. discriminate.
  - destruct (NIGHT_DURATION <=? t + 1) eqn:Ht.
    + destruct (5 <=? n) eqn:Hn; (split; [reflexivity|]); right;
        cbn [night time power leftDoorClosed rightDoorClosed currentCamera animatronics
             gameState bossMode set_gameState set_power set_time];
        rewrite Hp, Ht, Hn; repeat split; discriminate.
    + split; [reflexivity|]. left. split; reflexivity.
Qed.
